(** * movie_quiz.py: a console movie quiz, modelled and verified

    The development follows the one source file [movie_quiz.py]:

    - Python [str] values are Rocq [string]s over ASCII; [str.lower],
      [str.upper], [str.strip], [str.split] and [str.splitlines] are
      written out for that alphabet.
    - The [random] module is a [RandomSource]: the k-th call of
      [random.sample], [random.choice] or [random.shuffle] is answered by
      the source at draw index [k]; the index is threaded through the code.
    - [_scramble_word] contains a [while] loop, so it takes fuel and
      returns [None] when the fuel runs out before the loop ends.
    - [start] is a computation in a state-and-exception monad over a
      [world]: the quiz object (whose [Movie]s are mutated in place),
      the pending console input, the console output, the draw index. *)

From Stdlib Require Import String Ascii List Bool Arith Lia Permutation.
From Stdlib Require Import DecimalString.
Import ListNotations.
Open Scope string_scope.
Open Scope list_scope.
Open Scope nat_scope.

(** ** Python string operations (ASCII) *)

Module Str.

Definition chars : string -> list ascii := list_ascii_of_string.
Definition of_chars : list ascii -> string := string_of_list_ascii.

(** [str.isspace] on one ASCII character: TAB, LF, VT, FF, CR,
    FS, GS, RS, US and the space. *)
Definition is_space (c : ascii) : bool :=
  let n := nat_of_ascii c in
  ((9 <=? n) && (n <=? 13)) || ((28 <=? n) && (n <=? 32)).

Definition lower_char (c : ascii) : ascii :=
  let n := nat_of_ascii c in
  if (65 <=? n) && (n <=? 90) then ascii_of_nat (n + 32) else c.

Definition upper_char (c : ascii) : ascii :=
  let n := nat_of_ascii c in
  if (97 <=? n) && (n <=? 122) then ascii_of_nat (n - 32) else c.

Fixpoint map (f : ascii -> ascii) (s : string) : string :=
  match s with
  | EmptyString => EmptyString
  | String c s' => String (f c) (map f s')
  end.

Definition lower : string -> string := map lower_char.
Definition upper : string -> string := map upper_char.

Fixpoint lstrip (s : string) : string :=
  match s with
  | EmptyString => EmptyString
  | String c s' => if is_space c then lstrip s' else s
  end.

Definition reverse (s : string) : string := of_chars (rev (chars s)).

Definition rstrip (s : string) : string := reverse (lstrip (reverse s)).

Definition strip (s : string) : string := rstrip (lstrip s).

(** [cur] holds the characters of the word being read, last one first. *)
Fixpoint split_aux (s : string) (cur : list ascii) : list string :=
  match s with
  | EmptyString =>
      match cur with [] => [] | _ => [of_chars (rev cur)] end
  | String c s' =>
      if is_space c
      then match cur with
           | [] => split_aux s' []
           | _ => of_chars (rev cur) :: split_aux s' []
           end
      else split_aux s' (c :: cur)
  end.

(** [str.split()] without arguments: the maximal runs of non-space. *)
Definition split (s : string) : list string := split_aux s [].

(** Line boundaries of [str.splitlines]: LF, VT, FF, CR, FS, GS, RS. *)
Definition is_linebreak (c : ascii) : bool :=
  let n := nat_of_ascii c in
  ((10 <=? n) && (n <=? 13)) || ((28 <=? n) && (n <=? 30)).

Definition is_cr (c : ascii) : bool := nat_of_ascii c =? 13.
Definition is_lf (c : ascii) : bool := nat_of_ascii c =? 10.

Fixpoint splitlines_aux (s : string) (cur : list ascii) : list string :=
  match s with
  | EmptyString =>
      match cur with [] => [] | _ => [of_chars (rev cur)] end
  | String c s' =>
      if is_linebreak c
      then
        of_chars (rev cur) ::
        match s' with
        | String d s'' =>
            if is_cr c && is_lf d then splitlines_aux s'' []
            else splitlines_aux s' []
        | EmptyString => []
        end
      else splitlines_aux s' (c :: cur)
  end.

Definition splitlines (s : string) : list string := splitlines_aux s [].

(** [sep.join(l)] *)
Definition join (sep : string) (l : list string) : string :=
  String.concat sep l.

(** [str(n)] for a natural number, as the f-strings print it. *)
Definition of_nat (n : nat) : string :=
  NilEmpty.string_of_uint (Nat.to_uint n).

Definition contains (x : string) (l : list string) : bool :=
  existsb (String.eqb x) l.

End Str.

(** ** Data model *)

(** [class GuessResult(Enum)] *)
Inductive GuessResult := DEFAULT | CORRECT | INCORRECT | PASS.

Definition GuessResult_eqb (a b : GuessResult) : bool :=
  match a, b with
  | DEFAULT, DEFAULT | CORRECT, CORRECT
  | INCORRECT, INCORRECT | PASS, PASS => true
  | _, _ => false
  end.

(** [@dataclass class Movie] *)
Record Movie := mkMovie {
  title : string;
  anagrams : list string;
  correct_guess : bool;
  _spent : list string
}.

(** [Movie(title, [])]: the two defaulted fields. *)
Definition new_Movie (t : string) (a : list string) : Movie :=
  mkMovie t a false [].

Definition title_lower (m : Movie) : string := Str.lower (title m).

(** The attributes of a [MovieQuiz] object. [max_guesses] is a count of
    attempts and is kept in [nat]. *)
Record MovieQuiz := mkMovieQuiz {
  _movie_titles : list string;
  _questions : list Movie;
  _max_guesses : nat
}.

Definition questions (self : MovieQuiz) : list Movie := _questions self.
Definition max_guesses (self : MovieQuiz) : nat := _max_guesses self.

(** Exceptions that leave the modelled code. *)
Inductive exn :=
| IndexError      (* random.choice on an empty sequence *)
| OSError         (* open() on a missing or unreadable file *)
| EOFError        (* input() at the end of the input *)
| SystemExit.     (* exit() after Ctrl+C in get_input *)

Inductive outcome (A : Type) :=
| Ok (a : A)
| Raise (e : exn).
Arguments Ok {A} a.
Arguments Raise {A} e.

(** ** The [random] module *)

(** What the k-th call of the [random] module answers. [sample k l] is
    [random.sample(l, len(l))], [randbelow k n] the index picked by
    [random.choice] in a sequence of length [n], [shuffle k l] the order
    [random.shuffle] leaves the list in. *)
Record RandomSource := mkRandomSource {
  sample : nat -> list ascii -> list ascii;
  sample_perm : forall k l, Permutation (sample k l) l;
  randbelow : nat -> nat -> nat;
  randbelow_lt : forall k n, 0 < n -> randbelow k n < n;
  shuffle : nat -> list Movie -> list Movie;
  shuffle_perm : forall k l, Permutation (shuffle k l) l
}.

(** [random.choice(seq)] *)
Definition choice (R : RandomSource) (k : nat) (seq : list string)
  : outcome string :=
  match seq with
  | [] => Raise IndexError
  | x :: _ => Ok (nth (randbelow R k (length seq)) seq x)
  end.

(** ** The console *)

Inductive input_event :=
| Line (s : string)     (* the user types a line *)
| CtrlC.                (* the user presses Ctrl+C at the prompt *)

Inductive output_event :=
| Print (s : string)    (* print(s) *)
| Prompt (s : string)   (* the prompt written by input(s) *)
| Clear.                (* ConsoleUtils.clear() *)

Module Format.
Definition esc (code : string) : string := String (ascii_of_nat 27) code.
Definition HEADER := esc "[34m".
Definition KEYWORD := esc "[96m".
Definition CORRECT := esc "[92m".
Definition INCORRECT := esc "[91m".
Definition WARNING := esc "[93m".
Definition HIDDEN := esc "[8m".
Definition BOLD := esc "[1m".
Definition RESET := esc "[0m".
End Format.

Definition NL : string := String (ascii_of_nat 10) "".

(** ** State and exceptions *)

Record world := mkWorld {
  quiz : MovieQuiz;
  stdin : list input_event;
  stdout : list output_event;
  draws : nat
}.

Definition M (A : Type) : Type := world -> outcome A * world.

Definition ret {A} (a : A) : M A := fun w => (Ok a, w).

Definition bind {A B} (m : M A) (f : A -> M B) : M B :=
  fun w =>
    match m w with
    | (Ok a, w') => f a w'
    | (Raise e, w') => (Raise e, w')
    end.

Definition raise {A} (e : exn) : M A := fun w => (Raise e, w).

Declare Scope quiz_scope.
Delimit Scope quiz_scope with quiz.
Notation "x <- m ;; k" := (bind m (fun x => k))
  (at level 100, m at next level, right associativity) : quiz_scope.
Notation "m ;;; k" := (bind m (fun _ => k))
  (at level 100, right associativity) : quiz_scope.
Open Scope quiz_scope.

Definition print (s : string) : M unit :=
  fun w => (Ok tt, mkWorld (quiz w) (stdin w) (stdout w ++ [Print s]) (draws w)).

Definition clear : M unit :=
  fun w => (Ok tt, mkWorld (quiz w) (stdin w) (stdout w ++ [Clear]) (draws w)).

(** [input(prompt)]: writes the prompt, then reads one event. *)
Definition input (prompt : string) : M input_event :=
  fun w =>
    let out := stdout w ++ [Prompt prompt] in
    match stdin w with
    | [] => (Raise EOFError, mkWorld (quiz w) [] out (draws w))
    | ev :: rest => (Ok ev, mkWorld (quiz w) rest out (draws w))
    end.

(** [ConsoleUtils.get_input] *)
Definition get_input (prompt : string) : M string :=
  ev <- input prompt ;;
  match ev with
  | Line answer => ret (Str.strip answer)
  | CtrlC =>
      print (NL ++ NL ++ "Giving up are we? Okay, bye 👋")%string ;;;
      raise SystemExit
  end.

(** ** [Movie] *)

(** [[x for x in self.anagrams if x not in self._spent]] *)
Definition unspent (self : Movie) : list string :=
  filter (fun x => negb (Str.contains x (_spent self))) (anagrams self).

(** [Movie.random_anagram], at draw index [k]: the anagram returned and
    the object after the call. [random.choice] raises on an empty
    sequence, before [_spent] is touched. *)
Definition random_anagram (R : RandomSource) (k : nat) (self : Movie)
  : outcome (string * Movie) :=
  match choice R k (unspent self) with
  | Raise e => Raise e
  | Ok anagram =>
      Ok (anagram,
          mkMovie (title self) (anagrams self) (correct_guess self)
                  (_spent self ++ [anagram]))
  end.

(** ** [MovieQuiz]: building the quiz *)

(** [MovieQuiz._scramble_word]. The loop counter [i] is compared with 10
    at every iteration and, as in the source, never incremented. *)
Fixpoint scramble_loop (R : RandomSource) (fuel : nat) (word : string)
  (i k : nat) : option (string * nat) :=
  match fuel with
  | 0 => None
  | S fuel' =>
      if i <? 10 then
        let anagram := Str.of_chars (sample R k (Str.chars word)) in
        if negb (String.eqb anagram word)
        then Some (anagram, S k)
        else scramble_loop R fuel' word i (S k)
      else Some (word, k)
  end.

Definition _scramble_word (R : RandomSource) (fuel : nat) (word : string)
  (k : nat) : option (string * nat) :=
  scramble_loop R fuel word 0 k.

(** [[self._scramble_word(word) for word in title.split()]] *)
Fixpoint scramble_words (R : RandomSource) (fuel : nat)
  (words : list string) (k : nat) : option (list string * nat) :=
  match words with
  | [] => Some ([], k)
  | word :: rest =>
      match _scramble_word R fuel word k with
      | None => None
      | Some (a, k1) =>
          match scramble_words R fuel rest k1 with
          | None => None
          | Some (l, k2) => Some (a :: l, k2)
          end
      end
  end.

(** [for _ in range(n)]: one anagram of the title appended per round. *)
Fixpoint fill_anagrams (R : RandomSource) (fuel : nat) (n : nat)
  (movie : Movie) (k : nat) : option (Movie * nat) :=
  match n with
  | 0 => Some (movie, k)
  | S n' =>
      match scramble_words R fuel (Str.split (title movie)) k with
      | None => None
      | Some (anagram, k1) =>
          fill_anagrams R fuel n'
            (mkMovie (title movie)
                     (anagrams movie ++ [Str.upper (Str.join " " anagram)])
                     (correct_guess movie) (_spent movie))
            k1
      end
  end.

(** The number of anagrams generated per title: the [50] of [range(50)]. *)
Definition anagrams_per_title : nat := 50.

(** [for title in movie_titles]: [questions] is the list built so far. *)
Fixpoint build_questions (R : RandomSource) (fuel : nat)
  (movie_titles : list string) (questions : list Movie) (k : nat)
  : option (list Movie * nat) :=
  match movie_titles with
  | [] => Some (questions, k)
  | t :: rest =>
      match fill_anagrams R fuel anagrams_per_title (new_Movie t []) k with
      | None => None
      | Some (movie, k1) =>
          build_questions R fuel rest (questions ++ [movie]) k1
      end
  end.

(** [MovieQuiz._generate_quiz] *)
Definition _generate_quiz (R : RandomSource) (fuel : nat)
  (movie_titles : list string) (k : nat) : option (list Movie * nat) :=
  match build_questions R fuel movie_titles [] k with
  | None => None
  | Some (questions, k1) => Some (shuffle R k1 questions, S k1)
  end.

(** The files the program can open: [None] when [open] fails. *)
Definition filesystem := string -> option string.

(** [os.path.join(dir, filename)] on POSIX paths. *)
Definition ends_with_slash (s : string) : bool :=
  match Str.reverse s with
  | String "/" _ => true
  | _ => false
  end.

Definition join_path (dir filename : string) : string :=
  match filename with
  | String "/" _ => filename
  | _ =>
      if String.eqb dir "" || ends_with_slash dir
      then (dir ++ filename)%string
      else (dir ++ "/" ++ filename)%string
  end.

(** [MovieQuiz._load_movie_titles]; [dir] is [dirname(__file__)]. *)
Definition _load_movie_titles (fs : filesystem) (dir filename : string)
  : outcome (list string) :=
  match fs (join_path dir filename) with
  | None => Raise OSError
  | Some content => Ok (Str.splitlines content)
  end.

(** [MovieQuiz.__init__] *)
Definition __init__ (R : RandomSource) (fuel : nat) (fs : filesystem)
  (dir filename : string) (max_guesses : nat) (k : nat)
  : option (outcome MovieQuiz * nat) :=
  match _load_movie_titles fs dir filename with
  | Raise e => Some (Raise e, k)
  | Ok titles =>
      match _generate_quiz R fuel titles k with
      | None => None
      | Some (qs, k1) => Some (Ok (mkMovieQuiz titles qs max_guesses), k1)
      end
  end.

(** ** [MovieQuiz.start]: the session *)

Definition get_quiz : M MovieQuiz := fun w => (Ok (quiz w), w).

(** [list.__setitem__] within range; out of range the list is unchanged
    (the session only writes back the entry it has just read). *)
Fixpoint set_nth {A} (i : nat) (x : A) (l : list A) : list A :=
  match l, i with
  | [], _ => []
  | _ :: l', 0 => x :: l'
  | y :: l', S i' => y :: set_nth i' x l'
  end.

(** The [Movie] objects live in the quiz's list; the loop variable
    [question] of [start] is the object at index [i] of that list.
    Reading it is [self.questions[i]]. *)
Definition get_question (i : nat) : M Movie :=
  fun w =>
    match nth_error (questions (quiz w)) i with
    | Some q => (Ok q, w)
    | None => (Raise IndexError, w)
    end.

Definition set_question (i : nat) (q : Movie) : M unit :=
  fun w =>
    (Ok tt,
     mkWorld (mkMovieQuiz (_movie_titles (quiz w))
                          (set_nth i q (questions (quiz w)))
                          (_max_guesses (quiz w)))
             (stdin w) (stdout w) (draws w)).

Definition get_draws : M nat := fun w => (Ok (draws w), w).

Definition tick : M unit :=
  fun w => (Ok tt, mkWorld (quiz w) (stdin w) (stdout w) (S (draws w))).

(** [question.random_anagram()] on the object at index [i]. *)
Definition call_random_anagram (R : RandomSource) (i : nat) : M string :=
  question <- get_question i ;;
  k <- get_draws ;;
  match random_anagram R k question with
  | Raise e => raise e
  | Ok (anagram, question') =>
      tick ;;; set_question i question' ;;; ret anagram
  end.

(** [question.correct_guess = True] *)
Definition set_correct_guess (i : nat) : M unit :=
  question <- get_question i ;;
  set_question i
    (mkMovie (title question) (anagrams question) true (_spent question)).

Definition quiz_progress (self : MovieQuiz) (i : nat) : string :=
  (Str.of_nat (i + 1) ++ "/" ++ Str.of_nat (length (questions self)))%string.

Definition guess_progress (self : MovieQuiz) (i : nat) : string :=
  (Str.of_nat (i + 1) ++ " of " ++ Str.of_nat (max_guesses self))%string.

Definition msg_correct : string :=
  (Format.CORRECT ++ "🎉 Correct! Nicely done 🎉" ++ Format.RESET)%string.

Definition msg_incorrect : string :=
  (Format.INCORRECT ++ "👎 Incorrect, try again 👎" ++ Format.RESET)%string.

(** The [match answer.lower()] statement for the entry at index [i]:
    the cases are tried in the order of the source. *)
Definition match_answer (i : nat) (answer_lower : string) : M GuessResult :=
  question <- get_question i ;;
  if String.eqb answer_lower "next" then ret DEFAULT
  else if String.eqb answer_lower "pass" then ret PASS
  else if String.eqb answer_lower (title_lower question) then
    (set_correct_guess i ;;;
     print msg_correct ;;;
     ret CORRECT)
  else
    (print msg_incorrect ;;;
     ret INCORRECT).

(** [result in [GuessResult.CORRECT, GuessResult.PASS]] *)
Definition ends_entry (result : GuessResult) : bool :=
  GuessResult_eqb result CORRECT || GuessResult_eqb result PASS.

(** [if result == GuessResult.DEFAULT: print(... question.random_anagram() ...)] *)
Definition show_anagram (R : RandomSource) (i : nat) (result : GuessResult)
  : M unit :=
  if GuessResult_eqb result DEFAULT
  then
    (anagram <- call_random_anagram R i ;;
     print (NL ++ Format.HEADER ++ Format.BOLD ++ anagram
               ++ Format.RESET ++ NL)%string)
  else ret tt.

(** Reading the answer of round [x] and the [match] on it. *)
Definition read_guess (i x : nat) : M GuessResult :=
  self <- get_quiz ;;
  answer <- get_input ("Guess " ++ guess_progress self x ++ ": ")%string ;;
  match_answer i (Str.lower answer).

(** One round of [for x in range(self.max_guesses)], up to its [break]
    test: the value is the [result] after the [match]. *)
Definition attempt (R : RandomSource) (i x : nat) (result : GuessResult)
  : M GuessResult :=
  show_anagram R i result ;;;
  read_guess i x.

(** [for x in range(self.max_guesses)] with [n] rounds left, [x] being
    the round about to run. *)
Fixpoint guess_loop (R : RandomSource) (i x n : nat) (result : GuessResult)
  : M GuessResult :=
  match n with
  | 0 => ret result
  | S n' =>
      result' <- attempt R i x result ;;
      if ends_entry result' then ret result'
      else guess_loop R i (S x) n' result'
  end.

Definition msg_header (self : MovieQuiz) (i : nat) : string :=
  ("[" ++ quiz_progress self i ++ "] Which movie is this?")%string.

Definition msg_help : string :=
  ("Type " ++ Format.KEYWORD ++ "next" ++ Format.RESET
   ++ " to shuffle or " ++ Format.KEYWORD ++ "pass" ++ Format.RESET
   ++ " to skip")%string.

(** The message that reveals the title when the entry was not solved. *)
Definition msg_reveal (result : GuessResult) (question : Movie) : string :=
  let intro := "The answer was" in
  let intro :=
    if negb (GuessResult_eqb result PASS)
    then ("No more attempts left, " ++ Str.lower intro)%string
    else intro in
  (NL ++ intro ++ ":" ++ NL ++ Format.WARNING ++ Format.BOLD
      ++ Str.upper (title question) ++ Format.RESET)%string.

(** The body of [for i, question in enumerate(self.questions)]. *)
Definition ask (R : RandomSource) (i : nat) : M GuessResult :=
  clear ;;;
  self <- get_quiz ;;
  print (msg_header self i) ;;;
  print msg_help ;;;
  result <- guess_loop R i 0 (max_guesses self) DEFAULT ;;
  (if negb (GuessResult_eqb result CORRECT)
   then (question <- get_question i ;; print (msg_reveal result question))
   else ret tt) ;;;
  _ <- get_input (NL ++ "Press enter to continue...")%string ;;
  ret result.

(** [for i, question in enumerate(self.questions)] with [n] entries
    left, [i] being the index of the next one. The value lists the final
    [result] of each entry asked, in order. *)
Fixpoint ask_all (R : RandomSource) (i n : nat) : M (list GuessResult) :=
  match n with
  | 0 => ret []
  | S n' =>
      r <- ask R i ;;
      rs <- ask_all R (S i) n' ;;
      ret (r :: rs)
  end.

Definition msg_all_right : string :=
  (Format.CORRECT ++ "🎉 You got them all right! 🎉" ++ Format.RESET)%string.

Definition msg_all_wrong : string :=
  (Format.INCORRECT ++ "👎 You got them all wrong! 👎" ++ Format.RESET)%string.

Definition msg_not_bad : string :=
  "Not bad... but some room for improvement".

Definition msg_counts (correct incorrect : nat) : string :=
  ("You got " ++ Format.CORRECT ++ Str.of_nat correct ++ Format.RESET
   ++ " right and " ++ Format.INCORRECT ++ Str.of_nat incorrect
   ++ Format.RESET ++ " wrong")%string.

(** [len([question for question in self.questions if question.correct_guess])] *)
Definition count_correct (qs : list Movie) : nat :=
  length (filter correct_guess qs).

(** The end of [start], after the loop over the entries. *)
Definition summary : M unit :=
  clear ;;;
  print ("All done! Here are the results:" ++ NL)%string ;;;
  self <- get_quiz ;;
  let num_questions := length (questions self) in
  let correct := count_correct (questions self) in
  let incorrect := num_questions - correct in
  (if correct =? num_questions then print msg_all_right
   else if correct =? 0 then print msg_all_wrong
   else (print msg_not_bad ;;; print (msg_counts correct incorrect))) ;;;
  print NL.

(** [MovieQuiz.start]. The value lists the final [result] of each entry;
    the source returns nothing. *)
Definition start (R : RandomSource) : M (list GuessResult) :=
  self <- get_quiz ;;
  rs <- ask_all R 0 (length (questions self)) ;;
  summary ;;;
  ret rs.

(** The session on a quiz object: what [quiz.start()] does with the
    given console input, from draw index [k]. *)
Definition run_start (R : RandomSource) (self : MovieQuiz)
  (inp : list input_event) (k : nat)
  : outcome (list GuessResult) * world :=
  start R (mkWorld self inp [] k).

(** ** Concrete random sources *)

Definition rotate (l : list ascii) : list ascii :=
  match l with
  | [] => []
  | c :: l' => l' ++ [c]
  end.

Definition rotate_perm (l : list ascii) : Permutation (rotate l) l :=
  match l with
  | [] => perm_nil ascii
  | c :: l' => Permutation_sym (Permutation_cons_append l' c)
  end.

Definition zero_below (k n : nat) (H : 0 < n) : 0 < n := H.

(** [random.sample] answers the word rotated by one place, [random.choice]
    picks the first element, [random.shuffle] leaves the order as it is. *)
Definition rotating : RandomSource :=
  mkRandomSource
    (fun _ l => rotate l) (fun _ l => rotate_perm l)
    (fun _ _ => 0) zero_below
    (fun _ l => l) (fun _ l => Permutation_refl l).

(** [random.sample] answers the word in its own order at every draw. *)
Definition stuck : RandomSource :=
  mkRandomSource
    (fun _ l => l) (fun _ l => Permutation_refl l)
    (fun _ _ => 0) zero_below
    (fun _ l => l) (fun _ l => Permutation_refl l).

(** ** Strings and lists: auxiliary facts *)

Lemma of_chars_chars (s : string) : Str.of_chars (Str.chars s) = s.
Proof. apply string_of_list_ascii_of_string. Qed.

Lemma chars_of_chars (l : list ascii) : Str.chars (Str.of_chars l) = l.
Proof. apply list_ascii_of_string_of_list_ascii. Qed.

Lemma of_chars_eq_iff (l : list ascii) (s : string) :
  Str.of_chars l = s <-> l = Str.chars s.
Proof.
  split; intro H.
  - rewrite <- H. symmetry. apply chars_of_chars.
  - rewrite H. apply of_chars_chars.
Qed.

Lemma contains_In (x : string) (l : list string) :
  Str.contains x l = true <-> In x l.
Proof.
  unfold Str.contains. rewrite existsb_exists. split.
  - intros (y & Hy & E). apply String.eqb_eq in E. now subst.
  - intro H. exists x. split; [exact H | apply String.eqb_refl].
Qed.

Lemma unspent_In (self : Movie) (x : string) :
  In x (unspent self) <-> In x (anagrams self) /\ ~ In x (_spent self).
Proof.
  unfold unspent. rewrite filter_In, negb_true_iff.
  rewrite <- (contains_In x (_spent self)).
  destruct (Str.contains x (_spent self)); split; intros [H1 H2];
    split; try assumption; try discriminate; try reflexivity.
  now contradiction H2.
Qed.

(** ** [_scramble_word] *)

(** While the draws answer the word itself the loop goes on: the counter
    stays at 0, so the test [i < 10] never fails. *)
Lemma scramble_loop_stuck (R : RandomSource) (word : string) :
  forall fuel k,
    (forall j, j < fuel -> sample R (k + j) (Str.chars word) = Str.chars word) ->
    scramble_loop R fuel word 0 k = None.
Proof.
  induction fuel as [|fuel IH]; intros k H; simpl.
  - reflexivity.
  - assert (E : sample R k (Str.chars word) = Str.chars word).
    { rewrite <- (Nat.add_0_r k) at 1. apply H. lia. }
    rewrite E, of_chars_chars, String.eqb_refl. simpl.
    apply IH. intros j Hj.
    replace (S k + j) with (k + S j) by lia. apply H. lia.
Qed.

(** A word whose only arrangement is itself. *)
Definition rigid (word : string) : Prop :=
  forall l, Permutation l (Str.chars word) -> l = Str.chars word.

Lemma rigid_empty : rigid "".
Proof. intros l H. simpl in *. now apply Permutation_nil, Permutation_sym. Qed.

Lemma rigid_single (c : ascii) : rigid (String c "").
Proof. intros l H. simpl in *. now apply Permutation_length_1_inv, Permutation_sym. Qed.

Lemma scramble_word_rigid (R : RandomSource) (word : string) :
  rigid word -> forall fuel k, _scramble_word R fuel word k = None.
Proof.
  intros Hr fuel k. unfold _scramble_word.
  apply scramble_loop_stuck. intros j _. apply Hr, sample_perm.
Qed.

(** C2. For a one-character word, and for the empty word, [_scramble_word]
    never returns, whatever the random source answers and however many
    iterations are allowed: no draw can differ from the word and the
    retry counter is never advanced towards its bound of 10. *)
Theorem scramble_word_single_char_never_returns :
  forall (R : RandomSource) (fuel k : nat) (c : ascii),
    _scramble_word R fuel (String c "") k = None
    /\ _scramble_word R fuel "" k = None.
Proof.
  intros R fuel k c. split.
  - apply scramble_word_rigid, rigid_single.
  - apply scramble_word_rigid, rigid_empty.
Qed.

Lemma scramble_loop_perm (R : RandomSource) (word : string) :
  forall fuel i k r k',
    scramble_loop R fuel word i k = Some (r, k') ->
    Permutation (Str.chars r) (Str.chars word).
Proof.
  induction fuel as [|fuel IH]; intros i k r k' H; simpl in H.
  - discriminate.
  - destruct (i <? 10).
    + destruct (negb _) in H.
      * inversion H; subst. rewrite chars_of_chars. apply sample_perm.
      * eapply IH; eassumption.
    + inversion H; subst. apply Permutation_refl.
Qed.

(** The loop returns at the first draw that differs from the word. *)
Lemma scramble_loop_returns (R : RandomSource) (word : string) :
  forall j k,
    sample R (k + j) (Str.chars word) <> Str.chars word ->
    exists fuel r k',
      scramble_loop R fuel word 0 k = Some (r, k') /\ r <> word.
Proof.
  induction j as [|j IH]; intros k H.
  - exists 1, (Str.of_chars (sample R k (Str.chars word))), (S k).
    rewrite Nat.add_0_r in H. simpl.
    destruct (String.eqb_spec (Str.of_chars (sample R k (Str.chars word))) word)
      as [E|E]; simpl.
    + apply of_chars_eq_iff in E. contradiction.
    + split; [reflexivity | exact E].
  - destruct (String.eqb_spec (Str.of_chars (sample R k (Str.chars word))) word)
      as [E|E].
    + replace (k + S j) with (S k + j) in H by lia.
      destruct (IH (S k) H) as (fuel & r & k' & Hrun & Hne).
      exists (S fuel), r, k'. split; [|exact Hne].
      simpl. rewrite E, String.eqb_refl. simpl. exact Hrun.
    + exists 1, (Str.of_chars (sample R k (Str.chars word))), (S k).
      simpl. apply String.eqb_neq in E. rewrite E. simpl.
      apply String.eqb_neq in E. split; [reflexivity | exact E].
Qed.

(** At least two distinct characters occur in the word. *)
Definition two_distinct (w : string) : Prop :=
  exists a b, In a (Str.chars w) /\ In b (Str.chars w) /\ a <> b.

Lemma other_arrangement (l : list ascii) :
  (exists a b, In a l /\ In b l /\ a <> b) ->
  exists l', Permutation l' l /\ l' <> l.
Proof.
  intros (a & b & Ha & Hb & Hab).
  destruct l as [|c t]; [contradiction|].
  assert (Hd : exists d, In d t /\ d <> c).
  { destruct (ascii_dec a c) as [Eac|Nac].
    - exists b. subst a. destruct Hb as [Hb|Hb]; [congruence|].
      split; [exact Hb | congruence].
    - exists a. destruct Ha as [Ha|Ha]; [congruence|].
      split; [exact Ha | exact Nac]. }
  destruct Hd as (d & Hd & Hdc).
  destruct (in_split d t Hd) as (t1 & t2 & Et). subst t.
  exists (d :: t1 ++ c :: t2). split.
  - eapply Permutation_trans.
    + apply perm_skip, Permutation_sym, Permutation_middle.
    + eapply Permutation_trans; [apply perm_swap|].
      apply perm_skip, Permutation_middle.
  - intro E. inversion E. contradiction.
Qed.

(** C7. For a word with at least two distinct characters, whatever
    [_scramble_word] returns has the characters of the word, each as many
    times as the word has it; the call does return, with an arrangement
    other than the word, as soon as one draw of [random.sample] differs
    from the word; and such an arrangement of the word exists. *)
Theorem scramble_word_permutation (R : RandomSource) (w : string) (k : nat) :
  two_distinct w ->
  (forall fuel r k',
      _scramble_word R fuel w k = Some (r, k') ->
      Permutation (Str.chars r) (Str.chars w))
  /\ ((exists j, sample R (k + j) (Str.chars w) <> Str.chars w) ->
      exists fuel r k',
        _scramble_word R fuel w k = Some (r, k')
        /\ Permutation (Str.chars r) (Str.chars w) /\ r <> w)
  /\ (exists l, Permutation l (Str.chars w) /\ l <> Str.chars w).
Proof.
  intro H2. split; [|split].
  - intros fuel r k' H. eapply scramble_loop_perm. exact H.
  - intros (j & Hj).
    destruct (scramble_loop_returns R w j k Hj) as (fuel & r & k' & Hrun & Hne).
    exists fuel, r, k'. split; [exact Hrun|]. split; [|exact Hne].
    eapply scramble_loop_perm. exact Hrun.
  - apply other_arrangement. exact H2.
Qed.

Lemma scramble_word_permutation_witness :
  two_distinct "ab"
  /\ (exists fuel r k',
         _scramble_word rotating fuel "ab" 0 = Some (r, k')
         /\ Permutation (Str.chars r) (Str.chars "ab") /\ r <> "ab").
Proof.
  assert (H : two_distinct "ab").
  { exists "a"%char, "b"%char. simpl. split; [now left|].
    split; [now right; left | discriminate]. }
  split; [exact H|].
  apply (proj1 (proj2 (scramble_word_permutation rotating "ab" 0 H))).
  exists 0. simpl. discriminate.
Defined.

(** ** [Movie.random_anagram] *)

Lemma choice_In (R : RandomSource) (k : nat) (seq : list string) :
  seq <> [] -> exists a, choice R k seq = Ok a /\ In a seq.
Proof.
  intro H. destruct seq as [|x seq']; [congruence|].
  unfold choice. eexists. split; [reflexivity|].
  apply nth_In. apply randbelow_lt. simpl. lia.
Qed.

(** Once every anagram of the pool has been shown, the call raises. *)
Lemma random_anagram_exhausted (R : RandomSource) (k : nat) (self : Movie) :
  (forall x, In x (anagrams self) -> In x (_spent self)) ->
  random_anagram R k self = Raise IndexError.
Proof.
  intro H. unfold random_anagram.
  destruct (unspent self) as [|x l] eqn:E; [reflexivity|].
  assert (Hx : In x (unspent self)) by (rewrite E; now left).
  apply unspent_In in Hx. destruct Hx as [Hx Hn]. elim Hn. now apply H.
Qed.

(** With an unshown anagram in the pool the call returns one. *)
Lemma random_anagram_fresh (R : RandomSource) (k : nat) (self : Movie) :
  (exists x, In x (anagrams self) /\ ~ In x (_spent self)) ->
  exists a,
    random_anagram R k self
    = Ok (a, mkMovie (title self) (anagrams self) (correct_guess self)
                     (_spent self ++ [a]))
    /\ In a (anagrams self) /\ ~ In a (_spent self).
Proof.
  intros (x & Hx). apply unspent_In in Hx.
  assert (Hne : unspent self <> []).
  { intro E. rewrite E in Hx. contradiction. }
  destruct (choice_In R k (unspent self) Hne) as (a & Hc & Ha).
  exists a. unfold random_anagram. rewrite Hc.
  split; [reflexivity|]. now apply unspent_In.
Qed.

(** C1 (amended). As long as the pool holds an anagram that has not been
    shown, [random_anagram] does not raise: it returns a member of the
    pool that was not in [_spent] and appends it to [_spent], leaving
    the other fields as they were. *)
Theorem random_anagram_returns_unshown
  (R : RandomSource) (k : nat) (self : Movie) :
  (exists x, In x (anagrams self) /\ ~ In x (_spent self)) ->
  exists a,
    random_anagram R k self
    = Ok (a, mkMovie (title self) (anagrams self) (correct_guess self)
                     (_spent self ++ [a]))
    /\ In a (anagrams self) /\ ~ In a (_spent self).
Proof. apply random_anagram_fresh. Qed.

Lemma random_anagram_returns_unshown_witness :
  let self := mkMovie "Up" ["PU"; "UP"] false ["PU"] in
  (exists x, In x (anagrams self) /\ ~ In x (_spent self))
  /\ exists a,
      random_anagram rotating 0 self
      = Ok (a, mkMovie "Up" ["PU"; "UP"] false (["PU"] ++ [a]))
      /\ In a (anagrams self) /\ ~ In a (_spent self).
Proof.
  intro self.
  assert (H : exists x, In x (anagrams self) /\ ~ In x (_spent self)).
  { exists "UP". split; [simpl; tauto|].
    simpl. intros [E|[]]. discriminate. }
  split; [exact H|].
  exact (random_anagram_returns_unshown rotating 0 self H).
Defined.

(** C1, as stated, fails: an entry whose pool is the single anagram "PU"
    answers the first call with it and raises [IndexError] at the second,
    where the claim promises a member of the pool. *)
Lemma random_anagram_second_call_raises :
  let self := new_Movie "Up" ["PU"] in
  exists self',
    random_anagram rotating 0 self = Ok ("PU", self')
    /\ random_anagram rotating 1 self' = Raise IndexError.
Proof.
  simpl. eexists. split; reflexivity.
Qed.

(** With [stuck], the two-letter word "ab" is drawn again and again:
    more than ten draws are made and the loop still has not returned. *)
Lemma scramble_word_draws_unbounded :
  forall fuel k, _scramble_word stuck fuel "ab" k = None.
Proof.
  intros fuel k. unfold _scramble_word.
  apply scramble_loop_stuck. intros j _. reflexivity.
Qed.

(** ** [MovieQuiz.__init__] *)

Lemma shuffle_nil (R : RandomSource) (k : nat) : shuffle R k [] = [].
Proof. apply Permutation_nil, Permutation_sym, shuffle_perm. Qed.

(** An empty word list builds a quiz without entries. *)
Lemma init_empty_file (R : RandomSource) (fuel : nat) (fs : filesystem)
  (dir filename : string) (max_guesses k : nat) :
  fs (join_path dir filename) = Some "" ->
  __init__ R fuel fs dir filename max_guesses k
  = Some (Ok (mkMovieQuiz [] [] max_guesses), S k).
Proof.
  intro H. unfold __init__, _load_movie_titles. rewrite H. simpl.
  unfold _generate_quiz. simpl. now rewrite shuffle_nil.
Qed.

(** C3 (amended). When [open] fails on the word list (the file is missing
    or cannot be read), constructing the quiz raises that error: no title
    is loaded, no random draw is made, nothing is tried again. *)
Theorem init_missing_file_raises (R : RandomSource) (fuel : nat)
  (fs : filesystem) (dir filename : string) (max_guesses k : nat) :
  fs (join_path dir filename) = None ->
  __init__ R fuel fs dir filename max_guesses k = Some (Raise OSError, k).
Proof.
  intro H. unfold __init__, _load_movie_titles. now rewrite H.
Qed.

(** A directory that holds nothing. *)
Definition no_files : filesystem := fun _ => None.

(** A directory whose [movies.txt] is empty. *)
Definition empty_word_list : filesystem :=
  fun path => if String.eqb path "/quiz/movies.txt" then Some "" else None.

Lemma init_missing_file_raises_witness :
  no_files (join_path "/quiz" "movies.txt") = None
  /\ __init__ rotating 100 no_files "/quiz" "movies.txt" 3 0
     = Some (Raise OSError, 0).
Proof.
  split; [reflexivity|].
  apply (init_missing_file_raises rotating 100 no_files "/quiz" "movies.txt" 3 0).
  reflexivity.
Defined.

(** C3, as stated, fails for the empty file: the constructor returns a
    quiz with no entries and raises nothing. *)
Lemma init_empty_file_succeeds :
  empty_word_list (join_path "/quiz" "movies.txt") = Some ""
  /\ __init__ rotating 100 empty_word_list "/quiz" "movies.txt" 3 0
     = Some (Ok (mkMovieQuiz [] [] 3), 1).
Proof. split; reflexivity. Qed.

(** ** The session: what stays fixed *)

Lemma nth_error_set_nth {A} (l : list A) (i : nat) (x y : A) :
  nth_error l i = Some y -> nth_error (set_nth i x l) i = Some x.
Proof.
  revert i. induction l as [|z l IH]; intros [|i] H; simpl in *;
    try discriminate; auto.
Qed.

Lemma map_set_nth {A B} (f : A -> B) (l : list A) (i : nat) (x y : A) :
  nth_error l i = Some y -> f x = f y ->
  map f (set_nth i x l) = map f l.
Proof.
  revert i. induction l as [|z l IH]; intros [|i] H E; simpl in *;
    try discriminate.
  - inversion H; subst. now rewrite E.
  - f_equal. now apply IH.
Qed.

(** Two states of the quiz object with the same configuration, the same
    entries in the same order, and in each entry the same title and the
    same pool of anagrams. *)
Definition same_entries (a b : MovieQuiz) : Prop :=
  _movie_titles b = _movie_titles a
  /\ _max_guesses b = _max_guesses a
  /\ map title (questions b) = map title (questions a)
  /\ map anagrams (questions b) = map anagrams (questions a).

Lemma same_entries_refl (a : MovieQuiz) : same_entries a a.
Proof. repeat split. Qed.

Lemma same_entries_trans (a b c : MovieQuiz) :
  same_entries a b -> same_entries b c -> same_entries a c.
Proof.
  intros (H1 & H2 & H3 & H4) (G1 & G2 & G3 & G4).
  repeat split; congruence.
Qed.

(** A computation that leaves the entries as [same_entries] says,
    whether it returns or raises. *)
Definition keeps_entries {A} (m : M A) : Prop :=
  forall w, same_entries (quiz w) (quiz (snd (m w))).

Lemma keeps_ret {A} (a : A) : keeps_entries (ret a).
Proof. intro w. apply same_entries_refl. Qed.

Lemma keeps_raise {A} (e : exn) : keeps_entries (@raise A e).
Proof. intro w. apply same_entries_refl. Qed.

Lemma keeps_bind {A B} (m : M A) (f : A -> M B) :
  keeps_entries m -> (forall a, keeps_entries (f a)) ->
  keeps_entries (bind m f).
Proof.
  intros Hm Hf w. unfold bind.
  specialize (Hm w). destruct (m w) as [[a|e] w1]; simpl in *.
  - eapply same_entries_trans; [exact Hm | apply Hf].
  - exact Hm.
Qed.

Lemma keeps_print (s : string) : keeps_entries (print s).
Proof. intro w. apply same_entries_refl. Qed.

Lemma keeps_clear : keeps_entries clear.
Proof. intro w. apply same_entries_refl. Qed.

Lemma keeps_get_quiz : keeps_entries get_quiz.
Proof. intro w. apply same_entries_refl. Qed.

Lemma keeps_get_draws : keeps_entries get_draws.
Proof. intro w. apply same_entries_refl. Qed.

Lemma keeps_tick : keeps_entries tick.
Proof. intro w. apply same_entries_refl. Qed.

Lemma keeps_input (p : string) : keeps_entries (input p).
Proof.
  intro w. unfold input. destruct (stdin w); apply same_entries_refl.
Qed.

Lemma keeps_get_input (p : string) : keeps_entries (get_input p).
Proof.
  unfold get_input. apply keeps_bind; [apply keeps_input|].
  intros [s|]; [apply keeps_ret|].
  apply keeps_bind; [apply keeps_print | intros _; apply keeps_raise].
Qed.

Lemma keeps_get_question (i : nat) : keeps_entries (get_question i).
Proof.
  intro w. unfold get_question.
  destruct (nth_error _ i); apply same_entries_refl.
Qed.

(** Writing back an entry with the title and the pool it already has. *)
Lemma same_entries_set_question (i : nat) (q q' : Movie) (w : world) :
  nth_error (questions (quiz w)) i = Some q ->
  title q' = title q -> anagrams q' = anagrams q ->
  same_entries (quiz w) (quiz (snd (set_question i q' w))).
Proof.
  intros H Ht Ha. unfold same_entries, questions in *. simpl.
  repeat split; eapply map_set_nth; eassumption.
Qed.

(** An update of the entry at [i] by a function that keeps its title
    and its pool. *)
Lemma keeps_update (i : nat) {A} (f : Movie -> M A) :
  (forall q w, nth_error (questions (quiz w)) i = Some q ->
               same_entries (quiz w) (quiz (snd (f q w)))) ->
  keeps_entries (bind (get_question i) f).
Proof.
  intros H w. unfold bind, get_question.
  destruct (nth_error (questions (quiz w)) i) as [q|] eqn:E; simpl.
  - now apply H.
  - apply same_entries_refl.
Qed.

Lemma keeps_call_random_anagram (R : RandomSource) (i : nat) :
  keeps_entries (call_random_anagram R i).
Proof.
  unfold call_random_anagram. apply keeps_update. intros q w Hq.
  unfold bind, get_draws, random_anagram.
  destruct (choice R (draws w) (unspent q)) as [a|e]; simpl.
  - unfold same_entries, questions in *. simpl.
    repeat split; eapply map_set_nth; try eassumption; reflexivity.
  - apply same_entries_refl.
Qed.

Lemma keeps_set_correct_guess (i : nat) : keeps_entries (set_correct_guess i).
Proof.
  unfold set_correct_guess. apply keeps_update. intros q w Hq.
  eapply same_entries_set_question; [eassumption | reflexivity | reflexivity].
Qed.

Create HintDb keeps.
#[local] Hint Resolve keeps_ret keeps_raise keeps_print keeps_clear
  keeps_get_quiz keeps_get_draws keeps_tick keeps_input keeps_get_input
  keeps_get_question keeps_call_random_anagram keeps_set_correct_guess
  : keeps.

Ltac keeps_step :=
  first [ solve [auto with keeps]
        | match goal with |- keeps_entries (if ?b then _ else _) => destruct b end
        | apply keeps_bind; [|intro; cbv beta zeta] ].

Lemma keeps_match_answer (i : nat) (a : string) :
  keeps_entries (match_answer i a).
Proof. unfold match_answer. repeat keeps_step. Qed.

Lemma keeps_show_anagram (R : RandomSource) (i : nat) (r : GuessResult) :
  keeps_entries (show_anagram R i r).
Proof. unfold show_anagram. repeat keeps_step. Qed.

Lemma keeps_read_guess (i x : nat) : keeps_entries (read_guess i x).
Proof.
  unfold read_guess. apply keeps_bind; [apply keeps_get_quiz|]. intro self.
  apply keeps_bind; [apply keeps_get_input|]. intro answer.
  apply keeps_match_answer.
Qed.

Lemma keeps_attempt (R : RandomSource) (i x : nat) (r : GuessResult) :
  keeps_entries (attempt R i x r).
Proof.
  unfold attempt. apply keeps_bind;
    [apply keeps_show_anagram | intro; apply keeps_read_guess].
Qed.

Lemma keeps_guess_loop (R : RandomSource) (i : nat) :
  forall n x r, keeps_entries (guess_loop R i x n r).
Proof.
  induction n as [|n IH]; intros x r; simpl.
  - apply keeps_ret.
  - apply keeps_bind; [apply keeps_attempt|].
    intro r'. destruct (ends_entry r'); [apply keeps_ret | apply IH].
Qed.

Lemma keeps_ask (R : RandomSource) (i : nat) : keeps_entries (ask R i).
Proof.
  unfold ask. apply keeps_bind; [apply keeps_clear|]. intros _.
  apply keeps_bind; [apply keeps_get_quiz|]. intro self.
  apply keeps_bind; [apply keeps_print|]. intros _.
  apply keeps_bind; [apply keeps_print|]. intros _.
  apply keeps_bind; [apply keeps_guess_loop|]. intro result.
  repeat keeps_step.
Qed.

Lemma keeps_ask_all (R : RandomSource) :
  forall n i, keeps_entries (ask_all R i n).
Proof.
  induction n as [|n IH]; intro i; simpl.
  - apply keeps_ret.
  - apply keeps_bind; [apply keeps_ask|]. intro r.
    apply keeps_bind; [apply IH | intro; apply keeps_ret].
Qed.

Lemma keeps_summary : keeps_entries summary.
Proof. unfold summary. repeat keeps_step. Qed.

Lemma keeps_start (R : RandomSource) : keeps_entries (start R).
Proof.
  unfold start. apply keeps_bind; [apply keeps_get_quiz|]. intro self.
  apply keeps_bind; [apply keeps_ask_all|]. intro rs.
  apply keeps_bind; [apply keeps_summary | intro; apply keeps_ret].
Qed.

(** ** Reading and classifying one answer *)

(** The [result] the [match] statement assigns, case by case in the
    order of the source. *)
Definition classify (t_lower answer_lower : string) : GuessResult :=
  if String.eqb answer_lower "next" then DEFAULT
  else if String.eqb answer_lower "pass" then PASS
  else if String.eqb answer_lower t_lower then CORRECT
  else INCORRECT.

Definition solved (q : Movie) : Movie :=
  mkMovie (title q) (anagrams q) true (_spent q).

(** One typed line, read and matched against the entry at index [i]. *)
Lemma read_guess_line (i x : nat) (w : world) (q : Movie) (s : string)
  (rest : list input_event) :
  nth_error (questions (quiz w)) i = Some q ->
  stdin w = Line s :: rest ->
  let r := classify (title_lower q) (Str.lower (Str.strip s)) in
  exists w',
    read_guess i x w = (Ok r, w')
    /\ stdin w' = rest
    /\ draws w' = draws w
    /\ (r <> CORRECT -> quiz w' = quiz w)
    /\ (r = CORRECT ->
        quiz w' = mkMovieQuiz (_movie_titles (quiz w))
                              (set_nth i (solved q) (questions (quiz w)))
                              (_max_guesses (quiz w))).
Proof.
  intros Hq Hin r. subst r.
  unfold read_guess, bind, get_quiz, get_input, bind, input.
  rewrite Hin. unfold ret, match_answer, bind, get_question. simpl.
  rewrite Hq. unfold classify.
  destruct (String.eqb (Str.lower (Str.strip s)) "next").
  { eexists. split; [reflexivity|]. simpl. repeat split; congruence. }
  destruct (String.eqb (Str.lower (Str.strip s)) "pass").
  { eexists. split; [reflexivity|]. simpl. repeat split; congruence. }
  destruct (String.eqb (Str.lower (Str.strip s)) (title_lower q)).
  - unfold set_correct_guess, bind, get_question. simpl. rewrite Hq. simpl.
    eexists. split; [reflexivity|]. simpl. repeat split; congruence.
  - eexists. split; [reflexivity|]. simpl. repeat split; congruence.
Qed.

Lemma classify_correct_iff (t a : string) :
  classify t a = CORRECT <-> a = t /\ a <> "next" /\ a <> "pass".
Proof.
  unfold classify.
  destruct (String.eqb_spec a "next"); [intuition congruence|].
  destruct (String.eqb_spec a "pass"); [intuition congruence|].
  destruct (String.eqb_spec a t); intuition congruence.
Qed.

(** C4. A line that, trimmed and lower-cased, is [next] or [pass] is never
    taken as a correct guess, whatever the title of the entry (also when
    the title itself is "next" or "pass"): the result is [DEFAULT] for
    [next] and [PASS] for [pass], and the quiz object, with the entry's
    [correct_guess] flag, is left as it was. *)
Theorem reserved_words_never_correct (i x : nat) (w : world) (q : Movie)
  (s : string) (rest : list input_event) :
  nth_error (questions (quiz w)) i = Some q ->
  stdin w = Line s :: rest ->
  Str.lower (Str.strip s) = "next" \/ Str.lower (Str.strip s) = "pass" ->
  fst (read_guess i x w) <> Ok CORRECT
  /\ fst (read_guess i x w)
     = Ok (if String.eqb (Str.lower (Str.strip s)) "next"
           then DEFAULT else PASS)
  /\ quiz (snd (read_guess i x w)) = quiz w.
Proof.
  intros Hq Hin Hres.
  destruct (read_guess_line i x w q s rest Hq Hin)
    as (w' & Hrun & _ & _ & Hsame & _).
  rewrite Hrun. simpl.
  assert (E : classify (title_lower q) (Str.lower (Str.strip s))
              = if String.eqb (Str.lower (Str.strip s)) "next"
                then DEFAULT else PASS).
  { unfold classify. destruct Hres as [E|E]; rewrite E; reflexivity. }
  rewrite E in *.
  destruct (String.eqb (Str.lower (Str.strip s)) "next");
    (split; [discriminate|]); (split; [reflexivity|]);
    apply Hsame; discriminate.
Qed.

(** An entry whose title is "Next", asked with the user typing its title. *)
Definition next_world : world :=
  mkWorld (mkMovieQuiz ["Next"] [new_Movie "Next" ["EXTN"]] 3)
          [Line " NEXT "; Line "next"] [] 0.

Lemma reserved_words_never_correct_witness :
  Str.lower (Str.strip " NEXT ") = title_lower (new_Movie "Next" ["EXTN"])
  /\ fst (read_guess 0 0 next_world) <> Ok CORRECT
  /\ fst (read_guess 0 0 next_world) = Ok DEFAULT
  /\ quiz (snd (read_guess 0 0 next_world)) = quiz next_world.
Proof.
  split; [reflexivity|].
  apply (reserved_words_never_correct 0 0 next_world
           (new_Movie "Next" ["EXTN"]) " NEXT " [Line "next"]).
  - reflexivity.
  - reflexivity.
  - left. reflexivity.
Defined.

(** C6 (amended). The line read is accepted as the correct guess exactly
    when, trimmed and lower-cased, it equals the lower-cased title and is
    neither [next] nor [pass]; the match is exact. *)
Theorem guess_correct_iff (i x : nat) (w : world) (q : Movie)
  (s : string) (rest : list input_event) :
  nth_error (questions (quiz w)) i = Some q ->
  stdin w = Line s :: rest ->
  (fst (read_guess i x w) = Ok CORRECT
   <-> Str.lower (Str.strip s) = Str.lower (title q)
       /\ Str.lower (Str.strip s) <> "next"
       /\ Str.lower (Str.strip s) <> "pass").
Proof.
  intros Hq Hin.
  destruct (read_guess_line i x w q s rest Hq Hin) as (w' & Hrun & _).
  rewrite Hrun. simpl. rewrite <- classify_correct_iff. unfold title_lower.
  split; [intro H; now inversion H | intro H; now rewrite H].
Qed.

(** The entry "Inception" with the answer typed between spaces. *)
Definition inception_world (answer : string) : world :=
  mkWorld (mkMovieQuiz ["Inception"] [new_Movie "Inception" ["NCEPTIONI"]] 3)
          [Line answer] [] 0.

Lemma guess_correct_iff_witness :
  fst (read_guess 0 0 (inception_world " Inception ")) = Ok CORRECT
  /\ fst (read_guess 0 0 (inception_world "inception")) = Ok CORRECT.
Proof.
  split.
  - apply (guess_correct_iff 0 0 (inception_world " Inception ")
             (new_Movie "Inception" ["NCEPTIONI"]) " Inception " []);
      [reflexivity | reflexivity |].
    split; [reflexivity | split; discriminate].
  - apply (guess_correct_iff 0 0 (inception_world "inception")
             (new_Movie "Inception" ["NCEPTIONI"]) "inception" []);
      [reflexivity | reflexivity |].
    split; [reflexivity | split; discriminate].
Defined.

(** C6, as stated, fails for a reserved title: the line "next", trimmed
    and lower-cased, equals the lower-cased title "Next", and it is not
    accepted as the correct guess; the entry stays unsolved. *)
Lemma guess_equal_title_not_accepted :
  let w := mkWorld (mkMovieQuiz ["Next"] [new_Movie "Next" ["EXTN"]] 3)
                   [Line "next"] [] 0 in
  ~ (fst (read_guess 0 0 w) = Ok CORRECT
     <-> Str.lower (Str.strip "next") = Str.lower "Next")
  /\ fst (read_guess 0 0 w) = Ok DEFAULT
  /\ map correct_guess (questions (quiz (snd (read_guess 0 0 w)))) = [false].
Proof.
  intro w. split; [|split; reflexivity].
  intros [_ H]. specialize (H eq_refl). vm_compute in H. discriminate H.
Qed.

(** ** The attempt loop *)

(** The events a computation takes from the pending input. *)
Definition reads_at_most {A} (c : nat) (m : M A) : Prop :=
  forall w, exists used,
    stdin w = used ++ stdin (snd (m w)) /\ length used <= c.

Lemma reads_none {A} (m : M A) :
  (forall w, stdin (snd (m w)) = stdin w) -> reads_at_most 0 m.
Proof. intros H w. exists []. rewrite H. split; [reflexivity | simpl; lia]. Qed.





Lemma reads_get_question (i : nat) : reads_at_most 0 (get_question i).
Proof.
  apply reads_none. intro w. unfold get_question.
  now destruct (nth_error _ i).
Qed.







(** The number of distinct anagrams of the pool not shown yet. *)
Definition fresh_count (q : Movie) : nat :=
  length (nodup string_dec (unspent q)).

Definition shown (q : Movie) (a : string) : Movie :=
  mkMovie (title q) (anagrams q) (correct_guess q) (_spent q ++ [a]).

Lemma unspent_shown (q : Movie) (a : string) :
  unspent (shown q a)
  = filter (fun x => negb (String.eqb x a)) (unspent q).
Proof.
  unfold unspent, shown. simpl.
  induction (anagrams q) as [|y l IH]; simpl; [reflexivity|].
  unfold Str.contains in *. rewrite existsb_app. simpl.
  rewrite orb_false_r.
  destruct (existsb (String.eqb y) (_spent q)); simpl; [exact IH|].
  destruct (String.eqb y a); simpl; [exact IH | now rewrite IH].
Qed.

(** Showing one anagram takes one distinct anagram out of the unshown. *)
Lemma fresh_count_shown (q : Movie) (a : string) :
  fresh_count q <= S (fresh_count (shown q a)).
Proof.
  unfold fresh_count. rewrite unspent_shown.
  set (l := unspent q).
  change (S (length (nodup string_dec
                       (filter (fun x => negb (String.eqb x a)) l))))
    with (length (a :: nodup string_dec
                       (filter (fun x => negb (String.eqb x a)) l))).
  apply NoDup_incl_length; [apply NoDup_nodup|].
  intros x Hx. apply nodup_In in Hx.
  destruct (String.eqb_spec x a) as [E|E]; [now left|].
  right. apply nodup_In, filter_In. split; [exact Hx|].
  apply negb_true_iff. now apply String.eqb_neq.
Qed.
































(** The entry "Jaws" with three distinct anagrams and three guesses; the
    user asks for another anagram, guesses wrong, asks again, and only
    then types the title. *)
Definition jaws : Movie := new_Movie "Jaws" ["AWSJ"; "WSJA"; "SJAW"].

Definition jaws_world : world :=
  mkWorld (mkMovieQuiz ["Jaws"] [jaws] 3)
          [Line "next"; Line "Shark"; Line " NEXT "; Line "jaws"] [] 0.

(** ** The summary *)

Definition msg_all_done : string :=
  ("All done! Here are the results:" ++ NL)%string.

Lemma count_correct_le (qs : list Movie) : count_correct qs <= length qs.
Proof. apply filter_length_le. Qed.

Lemma count_correct_all (qs : list Movie) :
  count_correct qs = length qs
  <-> Forall (fun q => correct_guess q = true) qs.
Proof.
  unfold count_correct. induction qs as [|q qs IH]; simpl.
  - split; [constructor | reflexivity].
  - pose proof (filter_length_le correct_guess qs) as Hle.
    destruct (correct_guess q) eqn:E; simpl; split; intro H.
    + constructor; [exact E|]. apply IH. lia.
    + inversion H; subst. f_equal. now apply IH.
    + lia.
    + inversion H; subst. congruence.
Qed.

Lemma count_correct_none (qs : list Movie) :
  count_correct qs = 0
  <-> Forall (fun q => correct_guess q = false) qs.
Proof.
  unfold count_correct. induction qs as [|q qs IH]; simpl.
  - split; [constructor | reflexivity].
  - destruct (correct_guess q) eqn:E; simpl; split; intro H.
    + discriminate.
    + inversion H; subst. congruence.
    + constructor; [exact E | now apply IH].
    + inversion H; subst. now apply IH.
Qed.

Lemma count_correct_occ (qs : list Movie) :
  count_correct qs = count_occ bool_dec (map correct_guess qs) true.
Proof.
  unfold count_correct. induction qs as [|q qs IH]; simpl; [reflexivity|].
  destruct (correct_guess q); simpl; [now rewrite IH | exact IH].
Qed.

Lemma msg_right_wrong : msg_all_right <> msg_all_wrong.
Proof. intro H. vm_compute in H. discriminate H. Qed.

(** What [summary] does, with the lines printed between the heading and
    the closing blank line as a function of the two counts. *)
Definition verdict (correct total : nat) : list output_event :=
  if correct =? total then [Print msg_all_right]
  else if correct =? 0 then [Print msg_all_wrong]
  else [Print msg_not_bad; Print (msg_counts correct (total - correct))].

Lemma summary_run (w : world) :
  summary w
  = (Ok tt,
     mkWorld (quiz w) (stdin w)
       (stdout w ++ [Clear; Print msg_all_done]
          ++ verdict (count_correct (questions (quiz w)))
                     (length (questions (quiz w)))
          ++ [Print NL])
       (draws w)).
Proof.
  unfold summary, verdict, bind, clear, print, get_quiz. simpl.
  destruct (count_correct (questions (quiz w)) =? length (questions (quiz w)));
    [|destruct (count_correct (questions (quiz w)) =? 0)];
    simpl; rewrite <- !app_assoc; reflexivity.
Qed.

(** C8 (amended). [summary] counts as correct the entries whose flag is
    set and as incorrect the others, and prints one verdict between the
    heading and the closing line: the celebration exactly when every
    entry is correct (also when there is no entry), the commiseration
    exactly when no entry is correct and there is at least one entry,
    and otherwise the neutral line followed by the two counts. *)
Theorem summary_verdict (w : world) :
  let qs := questions (quiz w) in
  let total := length qs in
  let correct := count_correct qs in
  let incorrect := total - correct in
  exists lines,
    summary w
    = (Ok tt,
       mkWorld (quiz w) (stdin w)
         (stdout w ++ [Clear; Print msg_all_done] ++ lines ++ [Print NL])
         (draws w))
    /\ correct = count_occ bool_dec (map correct_guess qs) true
    /\ correct + incorrect = total
    /\ (lines = [Print msg_all_right]
        <-> Forall (fun q => correct_guess q = true) qs)
    /\ (lines = [Print msg_all_wrong]
        <-> Forall (fun q => correct_guess q = false) qs /\ qs <> [])
    /\ (lines = [Print msg_not_bad; Print (msg_counts correct incorrect)]
        <-> 0 < correct < total).
Proof.
  intros qs total correct incorrect.
  exists (verdict correct total).
  split; [apply summary_run|].
  split; [apply count_correct_occ|].
  pose proof (count_correct_le qs) as Hle. fold correct total in Hle.
  split; [unfold incorrect; lia|].
  pose proof (count_correct_all qs) as Hall.
  pose proof (count_correct_none qs) as Hnone.
  fold correct total in Hall. fold correct in Hnone.
  assert (Hnil : qs <> [] <-> total <> 0).
  { unfold total. destruct qs; simpl; split; congruence. }
  unfold verdict. fold incorrect.
  destruct (Nat.eqb_spec correct total) as [E|E];
    [|destruct (Nat.eqb_spec correct 0) as [E0|E0]];
    (split; [|split]); split; intro H;
    try reflexivity; try discriminate H; try lia;
    try (apply Hall; lia);
    try (apply Hall in H; lia);
    try (split; [apply Hnone; lia | apply Hnil; lia]);
    try (destruct H as [H Hne]; apply Hnone in H; apply Hnil in Hne; lia).
Qed.

(** C8, as stated, fails for the quiz without entries: no entry is
    correct, and the verdict printed is the celebration, not the
    commiseration. *)
Lemma empty_quiz_not_all_wrong :
  let w := mkWorld (mkMovieQuiz [] [] 3) [] [] 0 in
  count_correct (questions (quiz w)) = 0
  /\ stdout (snd (summary w))
     = [Clear; Print msg_all_done; Print msg_all_right; Print NL]
  /\ ~ In (Print msg_all_wrong) (stdout (snd (summary w))).
Proof.
  split; [reflexivity|]. split; [reflexivity|].
  vm_compute. intros [H|[H|[H|[H|[]]]]]; discriminate H.
Qed.

(** C10. On a quiz without entries [start] asks nothing, reads nothing,
    makes no random draw and returns after the summary, whose verdict is
    the celebration and not the commiseration. *)
Theorem empty_quiz_all_right (R : RandomSource) (titles : list string)
  (max_guesses k : nat) (inp : list input_event) :
  run_start R (mkMovieQuiz titles [] max_guesses) inp k
  = (Ok [],
     mkWorld (mkMovieQuiz titles [] max_guesses) inp
       [Clear; Print msg_all_done; Print msg_all_right; Print NL] k)
  /\ msg_all_right <> msg_all_wrong.
Proof. split; [reflexivity | apply msg_right_wrong]. Qed.

(** [start] ends with the summary of the entries as the loop left them. *)
Lemma start_then_summary (R : RandomSource) (w w' : world)
  (rs : list GuessResult) :
  start R w = (Ok rs, w') ->
  exists w1,
    ask_all R 0 (length (questions (quiz w))) w = (Ok rs, w1)
    /\ summary w1 = (Ok tt, w').
Proof.
  unfold start, bind, get_quiz. simpl.
  destruct (ask_all R 0 (length (questions (quiz w))) w) as [[rs1|e] w1];
    [|discriminate].
  rewrite summary_run. simpl. intro H. inversion H; subst.
  exists w1. split; [reflexivity | apply summary_run].
Qed.

(** ** The order of the entries *)

Lemma fill_anagrams_title (R : RandomSource) (fuel : nat) :
  forall n movie k movie' k',
    fill_anagrams R fuel n movie k = Some (movie', k') ->
    title movie' = title movie
    /\ correct_guess movie' = correct_guess movie
    /\ _spent movie' = _spent movie
    /\ length (anagrams movie') = length (anagrams movie) + n.
Proof.
  induction n as [|n IH]; intros movie k movie' k' H; simpl in H.
  - inversion H; subst. repeat split. lia.
  - destruct (scramble_words R fuel (Str.split (title movie)) k)
      as [[a k1]|]; [|discriminate].
    apply IH in H. simpl in H. destruct H as (H1 & H2 & H3 & H4).
    repeat split; try assumption. rewrite H4, length_app. simpl. lia.
Qed.

Lemma build_questions_cons (R : RandomSource) (fuel : nat) (t : string)
  (rest : list string) (acc : list Movie) (k : nat) :
  build_questions R fuel (t :: rest) acc k
  = match fill_anagrams R fuel anagrams_per_title (new_Movie t []) k with
    | None => None
    | Some (movie, k1) => build_questions R fuel rest (acc ++ [movie]) k1
    end.
Proof. reflexivity. Qed.

(** The entries are appended in the order of the titles. *)
Lemma build_questions_titles (R : RandomSource) (fuel : nat) :
  forall movie_titles acc k qs k',
    build_questions R fuel movie_titles acc k = Some (qs, k') ->
    map title qs = map title acc ++ movie_titles.
Proof.
  induction movie_titles as [|t rest IH]; intros acc k qs k' H.
  - inversion H; subst. now rewrite app_nil_r.
  - rewrite build_questions_cons in H.
    destruct (fill_anagrams R fuel anagrams_per_title (new_Movie t []) k)
      as [[movie k1]|] eqn:E; [|discriminate].
    apply fill_anagrams_title in E. destruct E as (Et & _).
    apply IH in H. rewrite H, map_app, <- app_assoc.
    f_equal. cbn [map app]. now rewrite Et.
Qed.

(** C9. [_generate_quiz] builds the entries in the order of the titles
    and shuffles the list at one draw, its last; the list it returns has
    the titles of the word list, in some order. From then on [start]
    keeps the list as it is, whatever is typed and however the session
    ends: the same titles in the same order, the same pool of anagrams
    in each entry, the same configuration; only [correct_guess] and
    [_spent] of an entry can differ. *)
Theorem entry_order_fixed (R : RandomSource) (fuel : nat)
  (titles : list string) (k k' : nat) (qs : list Movie)
  (max_guesses : nat) (inp : list input_event) :
  _generate_quiz R fuel titles k = Some (qs, k') ->
  (exists built k1,
      build_questions R fuel titles [] k = Some (built, k1)
      /\ map title built = titles
      /\ qs = shuffle R k1 built /\ k' = S k1)
  /\ Permutation (map title qs) titles
  /\ let self := mkMovieQuiz titles qs max_guesses in
     let after := quiz (snd (run_start R self inp k')) in
     map title (questions after) = map title qs
     /\ map anagrams (questions after) = map anagrams qs
     /\ length (questions after) = length qs
     /\ _movie_titles after = titles
     /\ _max_guesses after = max_guesses.
Proof.
  intro H. unfold _generate_quiz in H.
  destruct (build_questions R fuel titles [] k) as [[built k1]|] eqn:E;
    [|discriminate].
  inversion H; subst. clear H.
  pose proof (build_questions_titles R fuel titles [] k built k1 E) as Ht.
  simpl in Ht.
  split; [exists built, k1; repeat split; assumption|].
  split.
  - rewrite <- Ht. apply Permutation_map, shuffle_perm.
  - intros self after.
    destruct (keeps_start R (mkWorld self inp [] (S k1)))
      as (H1 & H2 & H3 & H4).
    fold (run_start R self inp (S k1)) in H1, H2, H3, H4.
    fold after in H1, H2, H3, H4. simpl in *.
    repeat split; try assumption.
    rewrite <- (length_map title), H3. apply length_map.
Qed.

(** The quiz built from two titles with the rotating source. *)
Definition two_titles : list string := ["Up"; "Jaws"].

Definition two_entries : list Movie :=
  match _generate_quiz rotating 1 two_titles 0 with
  | Some (qs, _) => qs
  | None => []
  end.

Lemma entry_order_fixed_witness :
  _generate_quiz rotating 1 two_titles 0 = Some (two_entries, 101)
  /\ map title two_entries = ["Up"; "Jaws"]
  /\ let after :=
       quiz (snd (run_start rotating (mkMovieQuiz two_titles two_entries 3)
                    [Line "next"; Line "up"; Line ""; Line "pass"] 101)) in
     map title (questions after) = map title two_entries
     /\ map anagrams (questions after) = map anagrams two_entries.
Proof.
  assert (H : _generate_quiz rotating 1 two_titles 0 = Some (two_entries, 101))
    by (vm_compute; reflexivity).
  split; [exact H|]. split; [vm_compute; reflexivity|].
  destruct (entry_order_fixed rotating 1 two_titles 0 101 two_entries 3
              [Line "next"; Line "up"; Line ""; Line "pass"] H)
    as (_ & _ & H1 & H2 & _).
  split; [exact H1 | exact H2].
Defined.

(** * Further properties of the code *)

(** ** [_scramble_word]: what it returns and when *)

Lemma length_chars (s : string) : length (Str.chars s) = String.length s.
Proof. induction s as [|c s IH]; simpl; [reflexivity | now rewrite IH]. Qed.

(** The loop returns the first draw that differs from the word; all the
    draws before it, from [k] on, answered the word itself. *)
Lemma scramble_loop_first_diff (R : RandomSource) (word : string) :
  forall fuel k r k',
    scramble_loop R fuel word 0 k = Some (r, k') ->
    k < k'
    /\ r = Str.of_chars (sample R (k' - 1) (Str.chars word))
    /\ r <> word
    /\ (forall j, k <= j < k' - 1 ->
                  sample R j (Str.chars word) = Str.chars word).
Proof.
  induction fuel as [|fuel IH]; intros k r k' H; simpl in H; [discriminate|].
  destruct (String.eqb_spec (Str.of_chars (sample R k (Str.chars word))) word)
    as [E|E]; simpl in H.
  - apply IH in H. destruct H as (Hlt & Hr & Hne & Hbefore).
    split; [lia|]. split; [exact Hr|]. split; [exact Hne|].
    intros j Hj. destruct (Nat.eq_dec j k) as [->|Hjk].
    + now apply of_chars_eq_iff.
    + apply Hbefore. lia.
  - inversion H; subst. replace (S k - 1) with k by lia.
    split; [lia|]. split; [reflexivity|]. split; [exact E|].
    intros j Hj. lia.
Qed.

(** X1. What [_scramble_word] returns is never the word it was given
    (the final [return word] is not reached): it is the first draw that
    differs from the word, of the same length, and every earlier draw of
    the call answered the word itself. *)
Theorem scramble_word_returns_first_different (R : RandomSource)
  (fuel : nat) (w r : string) (k k' : nat) :
  _scramble_word R fuel w k = Some (r, k') ->
  r <> w
  /\ String.length r = String.length w
  /\ k < k'
  /\ r = Str.of_chars (sample R (k' - 1) (Str.chars w))
  /\ (forall j, k <= j < k' - 1 -> sample R j (Str.chars w) = Str.chars w).
Proof.
  intro H. unfold _scramble_word in H.
  pose proof (scramble_loop_perm R w fuel 0 k r k' H) as Hperm.
  apply scramble_loop_first_diff in H.
  destruct H as (Hlt & Hr & Hne & Hbefore).
  split; [exact Hne|]. split.
  - rewrite <- !length_chars. now apply Permutation_length.
  - split; [exact Hlt|]. split; [exact Hr | exact Hbefore].
Qed.

Lemma scramble_word_returns_first_different_witness :
  _scramble_word rotating 3 "Jaws" 7 = Some ("awsJ", 8)
  /\ "awsJ" <> "Jaws"
  /\ String.length "awsJ" = String.length "Jaws".
Proof.
  assert (H : _scramble_word rotating 3 "Jaws" 7 = Some ("awsJ", 8))
    by reflexivity.
  split; [exact H|].
  destruct (scramble_word_returns_first_different rotating 3 "Jaws" "awsJ" 7 8 H)
    as (H1 & H2 & _).
  split; [exact H1 | exact H2].
Defined.

(** A list all of whose members are equal has one arrangement. *)
Lemma uniform_rigid (l l' : list ascii) :
  Permutation l' l ->
  (forall a b, In a l -> In b l -> a = b) ->
  l' = l.
Proof.
  induction 1 as [|x l1 l2 Hp IH|x y l0|l1 l2 l3 Hp1 IH1 Hp2 IH2]; intro Hu.
  - reflexivity.
  - f_equal. apply IH. intros a b Ha Hb. apply Hu; now right.
  - f_equal; [|f_equal]; apply Hu; simpl; auto.
  - rewrite IH1.
    + apply IH2. exact Hu.
    + intros a b Ha Hb. apply Hu; eapply Permutation_in; eassumption.
Qed.

Lemma not_two_distinct_rigid (w : string) : ~ two_distinct w -> rigid w.
Proof.
  intros Hn l Hp. apply uniform_rigid; [exact Hp|].
  intros a b Ha Hb. destruct (ascii_dec a b) as [E|E]; [exact E|].
  elim Hn. exists a, b. repeat split; assumption.
Qed.

(** A random source that answers the arrangement [l'] when asked to
    sample [l], and the list itself otherwise. *)
Definition answering (l l' : list ascii) (H : Permutation l' l)
  : RandomSource :=
  mkRandomSource
    (fun _ x => if list_eq_dec ascii_dec x l then l' else x)
    (fun _ x =>
       match list_eq_dec ascii_dec x l as d
             return Permutation (if d then l' else x) x with
       | left E => eq_rect_r (fun y => Permutation l' y) H E
       | right _ => Permutation_refl x
       end)
    (fun _ _ => 0) zero_below
    (fun _ x => x) (fun _ x => Permutation_refl x).

(** X2. [_scramble_word] fails to return, whatever the random source
    and however long it runs, exactly for the words without two
    distinct characters (the empty word, one character, one character
    repeated): for every other word some random source makes it return. *)
Theorem scramble_word_never_returns_iff (w : string) :
  (forall (R : RandomSource) (fuel k : nat), _scramble_word R fuel w k = None)
  <-> ~ two_distinct w.
Proof.
  split.
  - intros Hnone H2.
    destruct (other_arrangement (Str.chars w) H2) as (l' & Hp & Hne).
    specialize (Hnone (answering (Str.chars w) l' Hp) 1 0).
    unfold _scramble_word in Hnone. simpl in Hnone.
    destruct (list_eq_dec ascii_dec (Str.chars w) (Str.chars w)) as [_|N];
      [|now elim N].
    destruct (String.eqb_spec (Str.of_chars l') w) as [E|E]; simpl in Hnone.
    + apply of_chars_eq_iff in E. contradiction.
    + discriminate.
  - intros Hn R fuel k. apply scramble_word_rigid.
    now apply not_two_distinct_rigid.
Qed.

(** ** [_generate_quiz]: when it cannot return, and what it builds *)

(** A word all of whose characters are the same (one character, or one
    character repeated). *)
Definition one_letter (w : string) : Prop := ~ two_distinct w.

Lemma scramble_words_stuck (R : RandomSource) (fuel : nat) :
  forall words k,
    Exists one_letter words -> scramble_words R fuel words k = None.
Proof.
  induction words as [|w rest IH]; intros k H; [inversion H|].
  simpl. inversion H as [? ? Hw|? ? Hrest]; subst.
  - rewrite scramble_word_rigid; [reflexivity|].
    now apply not_two_distinct_rigid.
  - destruct (_scramble_word R fuel w k) as [[a k1]|]; [|reflexivity].
    now rewrite IH.
Qed.

Lemma fill_anagrams_S (R : RandomSource) (fuel n : nat) (movie : Movie)
  (k : nat) :
  fill_anagrams R fuel (S n) movie k
  = match scramble_words R fuel (Str.split (title movie)) k with
    | None => None
    | Some (anagram, k1) =>
        fill_anagrams R fuel n
          (mkMovie (title movie)
                   (anagrams movie ++ [Str.upper (Str.join " " anagram)])
                   (correct_guess movie) (_spent movie))
          k1
    end.
Proof. reflexivity. Qed.

Lemma anagrams_per_title_S : anagrams_per_title = S 49.
Proof. reflexivity. Qed.

Lemma build_questions_stuck (R : RandomSource) (fuel : nat) :
  forall movie_titles acc k,
    Exists (fun t => Exists one_letter (Str.split t)) movie_titles ->
    build_questions R fuel movie_titles acc k = None.
Proof.
  induction movie_titles as [|t rest IH]; intros acc k H; [inversion H|].
  rewrite build_questions_cons.
  inversion H as [? ? Ht|? ? Hrest]; subst.
  - rewrite anagrams_per_title_S, fill_anagrams_S.
    change (title (new_Movie t [])) with t.
    now rewrite scramble_words_stuck.
  - destruct (fill_anagrams R fuel anagrams_per_title (new_Movie t []) k)
      as [[movie k1]|]; [|reflexivity].
    now apply IH.
Qed.

(** X3. When the word list can be read and one of its titles has a word
    without two distinct characters (a one-letter word such as the "A"
    of "A Quiet Place"), constructing the quiz never returns, whatever
    the random source and however long it runs. *)
Theorem init_never_returns (R : RandomSource) (fuel : nat)
  (fs : filesystem) (dir filename content : string)
  (max_guesses k : nat) :
  fs (join_path dir filename) = Some content ->
  Exists (fun t => Exists one_letter (Str.split t)) (Str.splitlines content) ->
  __init__ R fuel fs dir filename max_guesses k = None.
Proof.
  intros Hfs Hbad. unfold __init__, _load_movie_titles. rewrite Hfs.
  unfold _generate_quiz. now rewrite build_questions_stuck.
Qed.

(** A word list of two titles, the second with the word "A". *)
Definition quiet_place : filesystem :=
  fun path =>
    if String.eqb path "/quiz/movies.txt"
    then Some ("Jaws" ++ NL ++ "A Quiet Place" ++ NL)%string
    else None.

Lemma one_letter_A : one_letter "A".
Proof.
  intros (a & b & Ha & Hb & Hab). simpl in Ha, Hb.
  destruct Ha as [Ha|[]], Hb as [Hb|[]]. congruence.
Qed.

Lemma init_never_returns_witness :
  Str.splitlines ("Jaws" ++ NL ++ "A Quiet Place" ++ NL)%string
  = ["Jaws"; "A Quiet Place"]
  /\ Str.split "A Quiet Place" = ["A"; "Quiet"; "Place"]
  /\ __init__ rotating 1000 quiet_place "/quiz" "movies.txt" 3 0 = None.
Proof.
  split; [reflexivity|]. split; [reflexivity|].
  apply (init_never_returns rotating 1000 quiet_place "/quiz" "movies.txt"
           ("Jaws" ++ NL ++ "A Quiet Place" ++ NL)%string 3 0).
  - reflexivity.
  - change (Str.splitlines ("Jaws" ++ NL ++ "A Quiet Place" ++ NL)%string)
      with ["Jaws"; "A Quiet Place"].
    apply Exists_cons_tl, Exists_cons_hd.
    change (Str.split "A Quiet Place") with ["A"; "Quiet"; "Place"].
    apply Exists_cons_hd, one_letter_A.
Defined.

(** An entry as [_generate_quiz] leaves it: not solved, nothing shown,
    [anagrams_per_title] anagrams in the pool. *)
Definition pristine (q : Movie) : Prop :=
  correct_guess q = false
  /\ _spent q = []
  /\ length (anagrams q) = anagrams_per_title.

Lemma build_questions_pristine (R : RandomSource) (fuel : nat) :
  forall movie_titles acc k qs k',
    build_questions R fuel movie_titles acc k = Some (qs, k') ->
    Forall pristine acc ->
    Forall pristine qs
    /\ length qs = length acc + length movie_titles.
Proof.
  induction movie_titles as [|t rest IH]; intros acc k qs k' H Hacc.
  - inversion H; subst. split; [exact Hacc | simpl; lia].
  - rewrite build_questions_cons in H.
    destruct (fill_anagrams R fuel anagrams_per_title (new_Movie t []) k)
      as [[movie k1]|] eqn:E; [|discriminate].
    apply fill_anagrams_title in E. destruct E as (_ & Hc & Hs & Hl).
    apply IH in H.
    + destruct H as [H1 H2]. split; [exact H1|].
      rewrite H2, length_app. simpl. lia.
    + apply Forall_app. split; [exact Hacc|].
      constructor; [|constructor]. repeat split; assumption.
Qed.

(** X4. The list [_generate_quiz] returns has one entry per title of the
    word list; every entry carries a title of the list, is unsolved, has
    nothing in [_spent] and has exactly 50 anagrams in its pool. *)
Theorem generate_quiz_entries (R : RandomSource) (fuel : nat)
  (movie_titles : list string) (k k' : nat) (qs : list Movie) :
  _generate_quiz R fuel movie_titles k = Some (qs, k') ->
  length qs = length movie_titles
  /\ Forall (fun q =>
               In (title q) movie_titles
               /\ correct_guess q = false
               /\ _spent q = []
               /\ length (anagrams q) = 50) qs.
Proof.
  intro H. unfold _generate_quiz in H.
  destruct (build_questions R fuel movie_titles [] k) as [[built k1]|] eqn:E;
    [|discriminate].
  inversion H; subst. clear H.
  pose proof (build_questions_titles R fuel movie_titles [] k built k1 E) as Ht.
  simpl in Ht.
  destruct (build_questions_pristine R fuel movie_titles [] k built k1 E
              (Forall_nil _)) as [Hp Hl].
  pose proof (shuffle_perm R k1 built) as Hperm.
  split.
  - rewrite (Permutation_length Hperm). exact Hl.
  - apply Forall_forall. intros q Hq.
    assert (Hq' : In q built) by (eapply Permutation_in; eassumption).
    split.
    + rewrite <- Ht. now apply in_map.
    + rewrite Forall_forall in Hp. exact (Hp q Hq').
Qed.

Lemma generate_quiz_entries_witness :
  _generate_quiz rotating 1 two_titles 0 = Some (two_entries, 101)
  /\ length two_entries = 2
  /\ Forall (fun q => length (anagrams q) = 50) two_entries.
Proof.
  assert (H : _generate_quiz rotating 1 two_titles 0 = Some (two_entries, 101))
    by (vm_compute; reflexivity).
  split; [exact H|].
  destruct (generate_quiz_entries rotating 1 two_titles 0 101 two_entries H)
    as [H1 H2].
  split; [exact H1|].
  eapply Forall_impl; [|exact H2]. intros q (_ & _ & _ & Hl). exact Hl.
Defined.

(** ** [random_anagram]: how often it can be called *)

Lemma fresh_count_shown_eq (q : Movie) (a : string) :
  In a (unspent q) -> fresh_count q = S (fresh_count (shown q a)).
Proof.
  intro Ha. apply Nat.le_antisymm; [apply fresh_count_shown|].
  unfold fresh_count. rewrite unspent_shown.
  set (l := unspent q) in *.
  change (S (length (nodup string_dec
                       (filter (fun x => negb (String.eqb x a)) l))))
    with (length (a :: nodup string_dec
                       (filter (fun x => negb (String.eqb x a)) l))).
  apply NoDup_incl_length.
  - constructor; [|apply NoDup_nodup].
    intro H. apply nodup_In, filter_In in H. destruct H as [_ H].
    rewrite String.eqb_refl in H. discriminate.
  - intros x [<-|Hx]; [now apply nodup_In|].
    apply nodup_In, filter_In in Hx. apply nodup_In. tauto.
Qed.

Lemma fresh_count_zero (q : Movie) : fresh_count q = 0 -> unspent q = [].
Proof.
  unfold fresh_count. intro H.
  destruct (unspent q) as [|x l] eqn:E; [reflexivity|].
  assert (Hx : In x (nodup string_dec (x :: l))) by (apply nodup_In; now left).
  destruct (nodup string_dec (x :: l)); [contradiction | discriminate].
Qed.

(** [n] calls of [random_anagram] in a row, from draw index [k]: the
    anagrams returned, in order, and the entry after the last call. *)
Fixpoint random_anagrams (R : RandomSource) (k n : nat) (self : Movie)
  : outcome (list string * Movie) :=
  match n with
  | 0 => Ok ([], self)
  | S n' =>
      match random_anagram R k self with
      | Raise e => Raise e
      | Ok (a, self1) =>
          match random_anagrams R (S k) n' self1 with
          | Raise e => Raise e
          | Ok (l, self2) => Ok (a :: l, self2)
          end
      end
  end.

Lemma random_anagram_unspent (R : RandomSource) (k : nat) (self : Movie) :
  unspent self <> [] ->
  exists a, random_anagram R k self = Ok (a, shown self a)
            /\ In a (unspent self).
Proof.
  intro Hne. destruct (choice_In R k (unspent self) Hne) as (a & Hc & Ha).
  exists a. unfold random_anagram. rewrite Hc. split; [reflexivity | exact Ha].
Qed.

Lemma random_anagrams_ok (R : RandomSource) :
  forall n k self,
    n <= fresh_count self ->
    exists l self',
      random_anagrams R k n self = Ok (l, self')
      /\ length l = n
      /\ NoDup l
      /\ (forall a, In a l -> In a (anagrams self) /\ ~ In a (_spent self))
      /\ _spent self' = _spent self ++ l
      /\ fresh_count self' + n = fresh_count self.
Proof.
  induction n as [|n IH]; intros k self Hn.
  - exists [], self. simpl. rewrite app_nil_r.
    repeat split; try constructor; try contradiction; lia.
  - assert (Hne : unspent self <> []).
    { intro E. unfold fresh_count in Hn. rewrite E in Hn. simpl in Hn. lia. }
    destruct (random_anagram_unspent R k self Hne) as (a & Hrun & Ha).
    pose proof (fresh_count_shown_eq self a Ha) as Hf.
    destruct (IH (S k) (shown self a)) as (l & self' & Hl & Hlen & Hnd & Hin & Hsp & Hfc);
      [lia|].
    exists (a :: l), self'. simpl. rewrite Hrun, Hl.
    split; [reflexivity|]. split; [simpl; lia|].
    simpl in Hin, Hsp.
    split; [|split; [|split]].
    + constructor; [|exact Hnd]. intro Hal.
      apply Hin in Hal. destruct Hal as [_ Hal]. apply Hal.
      apply in_or_app. right. now left.
    + intros b [<-|Hb]; [now apply unspent_In|].
      destruct (Hin b Hb) as [H1 H2]. split; [exact H1|].
      intro H. apply H2. apply in_or_app. now left.
    + rewrite Hsp, <- app_assoc. reflexivity.
    + lia.
Qed.

Lemma random_anagrams_raise (R : RandomSource) :
  forall n k self,
    fresh_count self < n ->
    random_anagrams R k n self = Raise IndexError.
Proof.
  induction n as [|n IH]; intros k self Hn; [lia|]. simpl.
  destruct (unspent self) as [|x l] eqn:E.
  - unfold random_anagram. now rewrite E.
  - assert (Hne : unspent self <> []) by (rewrite E; discriminate).
    destruct (random_anagram_unspent R k self Hne) as (a & Hrun & Ha).
    rewrite Hrun, IH; [reflexivity|].
    pose proof (fresh_count_shown_eq self a Ha). lia.
Qed.

(** X5. [random_anagram] can be called as many times in a row as the
    pool has distinct anagrams not shown yet, and no more: up to that
    number the calls return pairwise distinct members of the pool that
    were not in [_spent] and append them to [_spent] in order; one call
    more raises [IndexError]. Duplicates in the pool do not count. *)
Theorem random_anagram_capacity (R : RandomSource) (k n : nat)
  (self : Movie) :
  (n <= fresh_count self ->
   exists l self',
     random_anagrams R k n self = Ok (l, self')
     /\ length l = n
     /\ NoDup l
     /\ (forall a, In a l -> In a (anagrams self) /\ ~ In a (_spent self))
     /\ _spent self' = _spent self ++ l)
  /\ (fresh_count self < n ->
      random_anagrams R k n self = Raise IndexError).
Proof.
  split.
  - intro Hn.
    destruct (random_anagrams_ok R n k self Hn)
      as (l & self' & H1 & H2 & H3 & H4 & H5 & _).
    exists l, self'. repeat split; try assumption; now apply H4.
  - apply random_anagrams_raise.
Qed.

(** A pool of four anagrams, two of them distinct. *)
Definition up : Movie := new_Movie "Up" ["PU"; "PU"; "UP"; "PU"].

Lemma random_anagram_capacity_witness :
  fresh_count up = 2
  /\ (exists l self',
         random_anagrams rotating 0 2 up = Ok (l, self')
         /\ length l = 2 /\ NoDup l)
  /\ random_anagrams rotating 0 3 up = Raise IndexError.
Proof.
  assert (H : fresh_count up = 2) by reflexivity.
  split; [exact H|]. split.
  - destruct (proj1 (random_anagram_capacity rotating 0 2 up))
      as (l & self' & H1 & H2 & H3 & _); [rewrite H; lia|].
    exists l, self'. repeat split; assumption.
  - apply (proj2 (random_anagram_capacity rotating 0 3 up)). rewrite H. lia.
Defined.

(** ** The attempt loop when the pool runs out *)

Definition msg_anagram (anagram : string) : string :=
  (NL ++ Format.HEADER ++ Format.BOLD ++ anagram ++ Format.RESET ++ NL)%string.

(** The world after the entry at [i] has become [q'], with [out] printed
    and [d] more draws made. *)
Definition put (w : world) (i : nat) (q' : Movie)
  (out : list output_event) (d : nat) : world :=
  mkWorld (mkMovieQuiz (_movie_titles (quiz w))
                       (set_nth i q' (questions (quiz w)))
                       (_max_guesses (quiz w)))
          (stdin w) (stdout w ++ out) (d + draws w).

(** Showing an anagram when the round starts with [DEFAULT]. *)
Lemma show_anagram_default (R : RandomSource) (i : nat) (w : world)
  (q : Movie) :
  nth_error (questions (quiz w)) i = Some q ->
  1 <= fresh_count q ->
  exists a,
    In a (unspent q)
    /\ show_anagram R i DEFAULT w
       = (Ok tt, put w i (shown q a) [Print (msg_anagram a)] 1).
Proof.
  intros Hq Hf.
  assert (Hne : unspent q <> []).
  { intro E. unfold fresh_count in Hf. rewrite E in Hf. simpl in Hf. lia. }
  destruct (random_anagram_unspent R (draws w) q Hne) as (a & Hrun & Ha).
  exists a. split; [exact Ha|].
  unfold show_anagram, call_random_anagram, bind, get_question, get_draws.
  simpl. rewrite Hq. simpl. rewrite Hrun. reflexivity.
Qed.

Lemma show_anagram_exhausted (R : RandomSource) (i : nat) (w : world)
  (q : Movie) :
  nth_error (questions (quiz w)) i = Some q ->
  fresh_count q = 0 ->
  show_anagram R i DEFAULT w = (Raise IndexError, w).
Proof.
  intros Hq Hf. apply fresh_count_zero in Hf.
  unfold show_anagram, call_random_anagram, bind, get_question, get_draws.
  simpl. rewrite Hq. simpl. unfold random_anagram. now rewrite Hf.
Qed.

Lemma classify_next (t a : string) : a = "next" -> classify t a = DEFAULT.
Proof. intros ->. reflexivity. Qed.

(** Answering "next" as many times as the pool has distinct unshown
    anagrams, with more rounds allowed than that. *)
Lemma guess_loop_next_exhausts (R : RandomSource) (i : nat) :
  forall lines n x w q rest,
    nth_error (questions (quiz w)) i = Some q ->
    fresh_count q = length lines ->
    stdin w = map Line lines ++ rest ->
    Forall (fun s => Str.lower (Str.strip s) = "next") lines ->
    length lines < n ->
    exists w',
      guess_loop R i x n DEFAULT w = (Raise IndexError, w')
      /\ stdin w' = rest.
Proof.
  induction lines as [|s lines IH];
    intros n x w q rest Hq Hf Hin Hnext Hn;
    destruct n as [|n]; try (simpl in Hn; lia).
  - exists w. simpl guess_loop. unfold attempt, bind.
    rewrite (show_anagram_exhausted R i w q Hq Hf).
    split; [reflexivity | exact Hin].
  - simpl in Hf, Hn. inversion Hnext as [|? ? Hs Hrest]; subst.
    destruct (show_anagram_default R i w q Hq) as (a & Ha & Hshow); [lia|].
    simpl guess_loop. unfold attempt, bind. rewrite Hshow.
    set (w1 := put w i (shown q a) [Print (msg_anagram a)] 1).
    assert (Hq1 : nth_error (questions (quiz w1)) i = Some (shown q a)).
    { unfold w1, put, questions. simpl. eapply nth_error_set_nth. exact Hq. }
    assert (Hin1 : stdin w1 = Line s :: map Line lines ++ rest).
    { unfold w1, put. simpl. exact Hin. }
    destruct (read_guess_line i x w1 (shown q a) s _ Hq1 Hin1)
      as (w2 & Hread & Hin2 & _ & Hsame & _).
    rewrite Hread, (classify_next _ _ Hs). simpl ends_entry. cbv iota.
    rewrite (classify_next _ _ Hs) in Hsame.
    assert (Hq2 : nth_error (questions (quiz w2)) i = Some (shown q a)).
    { rewrite Hsame; [exact Hq1 | discriminate]. }
    apply (IH n (S x) w2 (shown q a) rest Hq2); try assumption; try lia.
    pose proof (fresh_count_shown_eq q a Ha). lia.
Qed.

(** X6. When the user answers "next" (in any case, with any padding) as
    many times as the entry has distinct anagrams left to show, and more
    guesses than that are allowed, the attempt loop raises [IndexError]
    at the next display, having read exactly those answers: nothing
    catches the empty pool. *)
Theorem next_until_pool_empty_raises (R : RandomSource) (i : nat)
  (w : world) (q : Movie) (lines : list string) (rest : list input_event) :
  nth_error (questions (quiz w)) i = Some q ->
  fresh_count q = length lines ->
  stdin w = map Line lines ++ rest ->
  Forall (fun s => Str.lower (Str.strip s) = "next") lines ->
  length lines < max_guesses (quiz w) ->
  fst (guess_loop R i 0 (max_guesses (quiz w)) DEFAULT w) = Raise IndexError
  /\ stdin (snd (guess_loop R i 0 (max_guesses (quiz w)) DEFAULT w)) = rest.
Proof.
  intros Hq Hf Hin Hnext Hn.
  destruct (guess_loop_next_exhausts R i lines (max_guesses (quiz w)) 0 w q
              rest Hq Hf Hin Hnext Hn) as (w' & Hrun & Hrest).
  rewrite Hrun. split; [reflexivity | exact Hrest].
Qed.

(** The two-letter title "Up": its pool of 50 holds one anagram, "PU". *)
Definition up_world : world :=
  mkWorld (mkMovieQuiz ["Up"] [new_Movie "Up" (repeat "PU" 50)] 3)
          [Line " Next"; Line "up"] [] 0.

Lemma next_until_pool_empty_raises_witness :
  fresh_count (new_Movie "Up" (repeat "PU" 50)) = 1
  /\ fst (guess_loop rotating 0 0 3 DEFAULT up_world) = Raise IndexError
  /\ stdin (snd (guess_loop rotating 0 0 3 DEFAULT up_world)) = [Line "up"].
Proof.
  split; [vm_compute; reflexivity|].
  apply (next_until_pool_empty_raises rotating 0 up_world
           (new_Movie "Up" (repeat "PU" 50)) [" Next"] [Line "up"]).
  - reflexivity.
  - vm_compute; reflexivity.
  - reflexivity.
  - constructor; [reflexivity | constructor].
  - simpl. lia.
Defined.

(** ** The session: how the entries change *)

(** Relations on the quiz object that every step of the session stays
    within: it is enough that showing an anagram and marking an entry
    solved do. *)
Section Respects.

Variable Rel : MovieQuiz -> MovieQuiz -> Prop.
Hypothesis Rel_refl : forall a, Rel a a.
Hypothesis Rel_trans : forall a b c, Rel a b -> Rel b c -> Rel a c.

Definition respects {A} (m : M A) : Prop :=
  forall w, Rel (quiz w) (quiz (snd (m w))).

Hypothesis Rel_shown :
  forall R i, respects (call_random_anagram R i).
Hypothesis Rel_solved :
  forall i, respects (set_correct_guess i).

Lemma respects_same {A} (m : M A) :
  (forall w, quiz (snd (m w)) = quiz w) -> respects m.
Proof. intros H w. rewrite H. apply Rel_refl. Qed.

Lemma respects_bind {A B} (m : M A) (f : A -> M B) :
  respects m -> (forall a, respects (f a)) -> respects (bind m f).
Proof.
  intros Hm Hf w. unfold bind.
  specialize (Hm w). destruct (m w) as [[a|e] w1]; simpl in *.
  - eapply Rel_trans; [exact Hm | apply Hf].
  - exact Hm.
Qed.

Lemma respects_get_input (p : string) : respects (get_input p).
Proof.
  apply respects_same. intro w. unfold get_input, bind, input.
  destruct (stdin w) as [|[s|] rest]; reflexivity.
Qed.

Lemma respects_get_question (i : nat) : respects (get_question i).
Proof.
  apply respects_same. intro w. unfold get_question.
  now destruct (nth_error _ i).
Qed.

Lemma respects_match_answer (i : nat) (a : string) :
  respects (match_answer i a).
Proof.
  unfold match_answer. apply respects_bind; [apply respects_get_question|].
  intro q.
  destruct (String.eqb a "next"); [now apply respects_same|].
  destruct (String.eqb a "pass"); [now apply respects_same|].
  destruct (String.eqb a (title_lower q)).
  - apply respects_bind; [apply Rel_solved|]. intros _.
    now apply respects_same.
  - now apply respects_same.
Qed.

Lemma respects_attempt (R : RandomSource) (i x : nat) (r : GuessResult) :
  respects (attempt R i x r).
Proof.
  unfold attempt. apply respects_bind.
  - unfold show_anagram. destruct (GuessResult_eqb r DEFAULT).
    + apply respects_bind; [apply Rel_shown|]. intro a.
      now apply respects_same.
    + now apply respects_same.
  - intros _. unfold read_guess.
    apply respects_bind; [now apply respects_same|]. intro self.
    apply respects_bind; [apply respects_get_input|]. intro answer.
    apply respects_match_answer.
Qed.

Lemma respects_guess_loop (R : RandomSource) (i : nat) :
  forall n x r, respects (guess_loop R i x n r).
Proof.
  induction n as [|n IH]; intros x r; simpl.
  - now apply respects_same.
  - apply respects_bind; [apply respects_attempt|].
    intro r'. destruct (ends_entry r'); [now apply respects_same | apply IH].
Qed.

Lemma respects_ask (R : RandomSource) (i : nat) : respects (ask R i).
Proof.
  unfold ask.
  apply respects_bind; [now apply respects_same|]. intros _.
  apply respects_bind; [now apply respects_same|]. intro self.
  apply respects_bind; [now apply respects_same|]. intros _.
  apply respects_bind; [now apply respects_same|]. intros _.
  apply respects_bind; [apply respects_guess_loop|]. intro result.
  apply respects_bind.
  - destruct (negb (GuessResult_eqb result CORRECT)).
    + apply respects_bind; [apply respects_get_question|].
      intro q. now apply respects_same.
    + now apply respects_same.
  - intros _. apply respects_bind; [apply respects_get_input|].
    intros _. now apply respects_same.
Qed.

Lemma respects_ask_all (R : RandomSource) :
  forall n i, respects (ask_all R i n).
Proof.
  induction n as [|n IH]; intro i; simpl.
  - now apply respects_same.
  - apply respects_bind; [apply respects_ask|]. intro r.
    apply respects_bind; [apply IH | intro; now apply respects_same].
Qed.

Lemma respects_start (R : RandomSource) : respects (start R).
Proof.
  unfold start. apply respects_bind; [now apply respects_same|]. intro self.
  apply respects_bind; [apply respects_ask_all|]. intro rs.
  apply respects_bind; [|intro; now apply respects_same].
  apply respects_same. intro w. now rewrite summary_run.
Qed.

End Respects.

(** An entry and a later state of it: the same title and pool, a flag
    that has not been taken back, and [_spent] extended by anagrams of
    the pool, pairwise distinct and not shown before. *)
Definition entry_grows (q q' : Movie) : Prop :=
  title q' = title q
  /\ anagrams q' = anagrams q
  /\ (correct_guess q = true -> correct_guess q' = true)
  /\ exists added,
       _spent q' = _spent q ++ added
       /\ NoDup added
       /\ forall a, In a added -> In a (anagrams q) /\ ~ In a (_spent q).

Definition quiz_grows (a b : MovieQuiz) : Prop :=
  _movie_titles b = _movie_titles a
  /\ _max_guesses b = _max_guesses a
  /\ Forall2 entry_grows (questions a) (questions b).

Lemma entry_grows_refl (q : Movie) : entry_grows q q.
Proof.
  repeat split; auto. exists []. rewrite app_nil_r.
  repeat split; try constructor; contradiction.
Qed.

Lemma entry_grows_trans (a b c : Movie) :
  entry_grows a b -> entry_grows b c -> entry_grows a c.
Proof.
  intros (Ht & Ha & Hc & l1 & Hs1 & Hn1 & Hi1)
         (Ht' & Ha' & Hc' & l2 & Hs2 & Hn2 & Hi2).
  split; [congruence|]. split; [congruence|]. split; [auto|].
  exists (l1 ++ l2). split; [rewrite Hs2, Hs1; symmetry; apply app_assoc|].
  split.
  - apply NoDup_app; try assumption.
    intros x Hx1 Hx2. apply Hi2 in Hx2. destruct Hx2 as [_ Hx2].
    apply Hx2. rewrite Hs1. apply in_or_app. now right.
  - intros x Hx. apply in_app_or in Hx. destruct Hx as [Hx|Hx].
    + now apply Hi1.
    + apply Hi2 in Hx. destruct Hx as [Hx1 Hx2]. split; [congruence|].
      intro H. apply Hx2. rewrite Hs1. apply in_or_app. now left.
Qed.

Lemma Forall2_same {A} (P : A -> A -> Prop) (l : list A) :
  (forall x, P x x) -> Forall2 P l l.
Proof. intro H. induction l; constructor; auto. Qed.

Lemma Forall2_chain {A} (P : A -> A -> Prop) :
  (forall x y z, P x y -> P y z -> P x z) ->
  forall l1 l2 l3, Forall2 P l1 l2 -> Forall2 P l2 l3 -> Forall2 P l1 l3.
Proof.
  intros Ht l1 l2 l3 H. revert l3.
  induction H as [|x y l1 l2 Hxy _ IH]; intros l3 H3; inversion H3; subst;
    constructor; eauto.
Qed.

Lemma Forall2_set_nth {A} (P : A -> A -> Prop) (l : list A) (i : nat)
  (x y : A) :
  (forall z, P z z) -> nth_error l i = Some x -> P x y ->
  Forall2 P l (set_nth i y l).
Proof.
  intros Hr. revert i. induction l as [|z l IH]; intros [|i] H Hp;
    simpl in *; try discriminate.
  - inversion H; subst. constructor; [exact Hp | now apply Forall2_same].
  - constructor; [apply Hr | now apply IH].
Qed.

Lemma quiz_grows_refl (a : MovieQuiz) : quiz_grows a a.
Proof.
  repeat split. apply Forall2_same, entry_grows_refl.
Qed.

Lemma quiz_grows_trans (a b c : MovieQuiz) :
  quiz_grows a b -> quiz_grows b c -> quiz_grows a c.
Proof.
  intros (H1 & H2 & H3) (G1 & G2 & G3).
  split; [congruence|]. split; [congruence|].
  eapply Forall2_chain; [apply entry_grows_trans | exact H3 | exact G3].
Qed.

Lemma quiz_grows_shown (R : RandomSource) (i : nat) :
  respects quiz_grows (call_random_anagram R i).
Proof.
  intro w. unfold call_random_anagram, bind, get_question, get_draws.
  destruct (nth_error (questions (quiz w)) i) as [q|] eqn:Hq;
    [|apply quiz_grows_refl]. simpl.
  destruct (unspent q) as [|x l] eqn:E.
  - unfold random_anagram. rewrite E. simpl. apply quiz_grows_refl.
  - assert (Hne : unspent q <> []) by (rewrite E; discriminate).
    destruct (random_anagram_unspent R (draws w) q Hne) as (a & Hrun & Ha).
    rewrite Hrun. simpl. repeat split.
    unfold questions at 2. simpl.
    apply (Forall2_set_nth entry_grows _ i q);
      [apply entry_grows_refl | exact Hq |].
    apply unspent_In in Ha.
    repeat split; auto. exists [a]. split; [reflexivity|].
    split; [constructor; [intros []|constructor]|].
    intros b [<-|[]]. exact Ha.
Qed.

Lemma quiz_grows_solved (i : nat) :
  respects quiz_grows (set_correct_guess i).
Proof.
  intro w. unfold set_correct_guess, bind, get_question.
  destruct (nth_error (questions (quiz w)) i) as [q|] eqn:Hq;
    [|apply quiz_grows_refl]. simpl. repeat split.
  unfold questions at 2. simpl.
  apply (Forall2_set_nth entry_grows _ i q);
    [apply entry_grows_refl | exact Hq |].
  repeat split; auto. exists []. simpl. rewrite app_nil_r.
  repeat split; try constructor; contradiction.
Qed.

Lemma start_grows (R : RandomSource) (w : world) :
  quiz_grows (quiz w) (quiz (snd (start R w))).
Proof.
  apply (respects_start quiz_grows quiz_grows_refl quiz_grows_trans
           quiz_grows_shown quiz_grows_solved).
Qed.

(** X7. Whatever is typed and however the session ends, [start] only
    moves the entries forward: entry by entry, in the same order, the
    title and the pool are kept, a [correct_guess] that was set stays
    set, and [_spent] is the old list followed by anagrams of the pool
    that are pairwise distinct and were not in it. *)
Theorem start_entries_grow (R : RandomSource) (self : MovieQuiz)
  (inp : list input_event) (k : nat) :
  Forall2 entry_grows
    (questions self)
    (questions (quiz (snd (run_start R self inp k)))).
Proof.
  destruct (start_grows R (mkWorld self inp [] k)) as (_ & _ & H). exact H.
Qed.

(** An entry in which no anagram was shown twice and every anagram
    shown is from its pool. *)
Definition shown_once (q : Movie) : Prop :=
  NoDup (_spent q) /\ incl (_spent q) (anagrams q).

Lemma entry_grows_shown_once (q q' : Movie) :
  entry_grows q q' -> shown_once q -> shown_once q'.
Proof.
  intros (_ & Ha & _ & added & Hs & Hn & Hi) [Hnd Hincl].
  unfold shown_once. rewrite Hs, Ha. split.
  - apply NoDup_app; try assumption.
    intros x Hx Hadd. apply Hi in Hadd. tauto.
  - intros x Hx. apply in_app_or in Hx. destruct Hx as [Hx|Hx].
    + now apply Hincl.
    + now apply Hi.
Qed.

(** X8. No anagram is shown twice for an entry, and only anagrams of its
    pool are shown: if that holds of every entry before [start], as it
    does for the entries [_generate_quiz] builds, it holds of every
    entry afterwards, however the session ends. *)
Theorem start_never_repeats_anagram (R : RandomSource) (self : MovieQuiz)
  (inp : list input_event) (k : nat) :
  Forall shown_once (questions self) ->
  Forall shown_once (questions (quiz (snd (run_start R self inp k)))).
Proof.
  intro H.
  destruct (start_grows R (mkWorld self inp [] k)) as (_ & _ & Hg).
  fold (run_start R self inp k) in Hg. simpl in Hg.
  induction Hg as [|q q' l l' Hq _ IH]; [constructor|].
  inversion H; subst. constructor.
  - eapply entry_grows_shown_once; eassumption.
  - now apply IH.
Qed.

Lemma start_never_repeats_anagram_witness :
  Forall shown_once (questions (quiz jaws_world))
  /\ Forall shown_once
       (questions (quiz (snd (run_start rotating (quiz jaws_world)
                                (stdin jaws_world) 0)))).
Proof.
  assert (H : Forall shown_once (questions (quiz jaws_world))).
  { constructor; [|constructor]. split; [constructor | intros x []]. }
  split; [exact H|].
  exact (start_never_repeats_anagram rotating (quiz jaws_world)
           (stdin jaws_world) 0 H).
Defined.

(** ** The session when it returns: results, flags and messages *)

Definition is_correct (r : GuessResult) : bool := GuessResult_eqb r CORRECT.

(** The quiz object with the entry at index [i] replaced. *)
Definition replace (i : nat) (q' : Movie) (a : MovieQuiz) : MovieQuiz :=
  mkMovieQuiz (_movie_titles a) (set_nth i q' (questions a)) (_max_guesses a).

Lemma set_nth_same {A} (l : list A) (i : nat) (x : A) :
  nth_error l i = Some x -> set_nth i x l = l.
Proof.
  revert i. induction l as [|y l IH]; intros [|i] H; simpl in *;
    try discriminate; try reflexivity.
  - now inversion H.
  - f_equal. now apply IH.
Qed.

Lemma set_nth_twice {A} (l : list A) (i : nat) (x y : A) :
  set_nth i y (set_nth i x l) = set_nth i y l.
Proof.
  revert i. induction l as [|z l IH]; intros [|i]; simpl; try reflexivity.
  f_equal. apply IH.
Qed.

Lemma set_nth_app {A} (pre post : list A) (x y : A) :
  set_nth (length pre) y (pre ++ x :: post) = pre ++ y :: post.
Proof. induction pre as [|z pre IH]; simpl; [reflexivity | now rewrite IH]. Qed.

Lemma nth_error_middle {A} (pre post : list A) (x : A) :
  nth_error (pre ++ x :: post) (length pre) = Some x.
Proof. induction pre as [|z pre IH]; simpl; [reflexivity | exact IH]. Qed.

Lemma replace_same (i : nat) (q : Movie) (a : MovieQuiz) :
  nth_error (questions a) i = Some q -> replace i q a = a.
Proof.
  intro H. unfold replace. rewrite (set_nth_same _ _ _ H). now destruct a.
Qed.

Lemma replace_twice (i : nat) (x y : Movie) (a : MovieQuiz) :
  replace i y (replace i x a) = replace i y a.
Proof. unfold replace, questions. simpl. now rewrite set_nth_twice. Qed.

Lemma replace_nth (i : nat) (q q' : Movie) (a : MovieQuiz) :
  nth_error (questions a) i = Some q ->
  nth_error (questions (replace i q' a)) i = Some q'.
Proof. intro H. unfold replace, questions. simpl. eapply nth_error_set_nth, H. Qed.

(** What is printed after the answer has been matched. *)
Definition feedback (r : GuessResult) : list output_event :=
  match r with
  | CORRECT => [Print msg_correct]
  | INCORRECT => [Print msg_incorrect]
  | _ => []
  end.

Definition guess_prompt (self : MovieQuiz) (x : nat) : string :=
  ("Guess " ++ guess_progress self x ++ ": ")%string.

(** [read_guess] on a typed line, in full. *)
Lemma read_guess_line_full (i x : nat) (w : world) (q : Movie) (s : string)
  (rest : list input_event) :
  nth_error (questions (quiz w)) i = Some q ->
  stdin w = Line s :: rest ->
  let r := classify (title_lower q) (Str.lower (Str.strip s)) in
  read_guess i x w
  = (Ok r,
     mkWorld (if is_correct r then replace i (solved q) (quiz w) else quiz w)
             rest
             (stdout w ++ Prompt (guess_prompt (quiz w) x) :: feedback r)
             (draws w)).
Proof.
  intros Hq Hin r. subst r.
  unfold read_guess, bind, get_quiz, get_input, bind, input.
  rewrite Hin. unfold ret, match_answer, bind, get_question. simpl.
  rewrite Hq. unfold classify, guess_prompt.
  destruct (String.eqb (Str.lower (Str.strip s)) "next"); [reflexivity|].
  destruct (String.eqb (Str.lower (Str.strip s)) "pass"); [reflexivity|].
  destruct (String.eqb (Str.lower (Str.strip s)) (title_lower q)).
  - unfold set_correct_guess, bind, get_question. simpl. rewrite Hq. simpl.
    unfold print. simpl. rewrite <- app_assoc. reflexivity.
  - unfold print. simpl. rewrite <- app_assoc. reflexivity.
Qed.

(** [read_guess] returns only when a line was typed. *)
Lemma read_guess_ok (i x : nat) (w w' : world) (r : GuessResult) :
  read_guess i x w = (Ok r, w') ->
  exists s rest, stdin w = Line s :: rest.
Proof.
  unfold read_guess, bind, get_quiz, get_input, bind, input.
  destruct (stdin w) as [|[s|] rest]; simpl; intro H; try discriminate.
  now exists s, rest.
Qed.

Lemma get_input_ok (p : string) (w w' : world) (a : string) :
  get_input p w = (Ok a, w') ->
  exists s rest,
    stdin w = Line s :: rest
    /\ a = Str.strip s
    /\ w' = mkWorld (quiz w) rest (stdout w ++ [Prompt p]) (draws w).
Proof.
  unfold get_input, bind, input.
  destruct (stdin w) as [|[s|] rest]; simpl; intro H; try discriminate.
  inversion H; subst. now exists s, rest.
Qed.

(** One round that returns: only the entry at [i] can have changed; its
    title is kept and its flag is set exactly by a [CORRECT] result. *)
Lemma attempt_ok (R : RandomSource) (i x : nat) (res r : GuessResult)
  (w w' : world) (q : Movie) :
  nth_error (questions (quiz w)) i = Some q ->
  attempt R i x res w = (Ok r, w') ->
  exists q' out,
    quiz w' = replace i q' (quiz w)
    /\ title q' = title q
    /\ correct_guess q' = correct_guess q || is_correct r
    /\ stdout w' = stdout w ++ out.
Proof.
  intros Hq H. unfold attempt, bind in H.
  assert (Hshow : exists q1 out1 w1,
             show_anagram R i res w = (Ok tt, w1)
             /\ quiz w1 = replace i q1 (quiz w)
             /\ title q1 = title q
             /\ correct_guess q1 = correct_guess q
             /\ stdout w1 = stdout w ++ out1).
  { destruct res;
      try (exists q, [], w; rewrite app_nil_r, (replace_same i q _ Hq);
           repeat split; reflexivity).
    destruct (fresh_count q) as [|d] eqn:Hf.
    - rewrite (show_anagram_exhausted R i w q Hq Hf) in H. discriminate.
    - destruct (show_anagram_default R i w q Hq) as (a & _ & Hs); [lia|].
      exists (shown q a), [Print (msg_anagram a)],
        (put w i (shown q a) [Print (msg_anagram a)] 1).
      split; [exact Hs|]. repeat split. }
  destruct Hshow as (q1 & out1 & w1 & Hs & Hquiz1 & Ht1 & Hc1 & Hout1).
  rewrite Hs in H.
  destruct (read_guess_ok i x w1 w' r H) as (s & rest & Hin1).
  assert (Hq1 : nth_error (questions (quiz w1)) i = Some q1).
  { rewrite Hquiz1. eapply replace_nth, Hq. }
  rewrite (read_guess_line_full i x w1 q1 s rest Hq1 Hin1) in H.
  inversion H; subst. clear H. simpl.
  set (r := classify (title_lower q1) (Str.lower (Str.strip s))).
  destruct (is_correct r) eqn:Er.
  - exists (solved q1), (out1 ++ Prompt (guess_prompt (quiz w1) x) :: feedback r).
    rewrite Hquiz1, replace_twice, Hout1, <- app_assoc.
    repeat split; [exact Ht1 | simpl; now rewrite orb_true_r].
  - exists q1, (out1 ++ Prompt (guess_prompt (quiz w1) x) :: feedback r).
    rewrite Hout1, <- app_assoc.
    repeat split; [exact Hquiz1 | exact Ht1 | now rewrite orb_false_r].
Qed.

Lemma ends_entry_correct (r : GuessResult) :
  ends_entry r = false -> is_correct r = false.
Proof. now destruct r. Qed.

Lemma guess_loop_ok (R : RandomSource) (i : nat) :
  forall n x res w q r w',
    nth_error (questions (quiz w)) i = Some q ->
    is_correct res = false ->
    guess_loop R i x n res w = (Ok r, w') ->
    exists q' out,
      quiz w' = replace i q' (quiz w)
      /\ title q' = title q
      /\ correct_guess q' = correct_guess q || is_correct r
      /\ stdout w' = stdout w ++ out.
Proof.
  induction n as [|n IH]; intros x res w q r w' Hq Hres H; simpl in H.
  - inversion H; subst. exists q, [].
    rewrite app_nil_r, (replace_same i q _ Hq), Hres, orb_false_r.
    repeat split.
  - unfold bind in H.
    destruct (attempt R i x res w) as [[r1|e] w1] eqn:Ha; [|discriminate].
    destruct (attempt_ok R i x res r1 w w1 q Hq Ha)
      as (q1 & out1 & Hquiz1 & Ht1 & Hc1 & Hout1).
    destruct (ends_entry r1) eqn:Eend.
    + inversion H; subst. exists q1, out1. repeat split; assumption.
    + assert (Hq1 : nth_error (questions (quiz w1)) i = Some q1).
      { rewrite Hquiz1. eapply replace_nth, Hq. }
      pose proof (ends_entry_correct r1 Eend) as Hr1.
      destruct (IH (S x) r1 w1 q1 r w' Hq1 Hr1 H)
        as (q' & out & Hquiz & Ht & Hc & Hout).
      exists q', (out1 ++ out).
      rewrite Hquiz, Hquiz1, replace_twice, Hout, Hout1, <- app_assoc.
      rewrite Hr1, orb_false_r in Hc1.
      repeat split; congruence.
Qed.

(** What [ask] prints once the attempt loop has ended. *)
Definition reveal (r : GuessResult) (q : Movie) : list output_event :=
  if is_correct r then [] else [Print (msg_reveal r q)].

Definition msg_continue : string := (NL ++ "Press enter to continue...")%string.

Lemma msg_reveal_title (r : GuessResult) (q q' : Movie) :
  title q' = title q -> msg_reveal r q' = msg_reveal r q.
Proof. intro H. unfold msg_reveal. now rewrite H. Qed.

Lemma ask_ok (R : RandomSource) (i : nat) (w w' : world) (q : Movie)
  (r : GuessResult) :
  nth_error (questions (quiz w)) i = Some q ->
  ask R i w = (Ok r, w') ->
  exists q' out,
    quiz w' = replace i q' (quiz w)
    /\ title q' = title q
    /\ correct_guess q' = correct_guess q || is_correct r
    /\ stdout w'
       = stdout w
         ++ [Clear; Print (msg_header (quiz w) i); Print msg_help]
         ++ out ++ reveal r q ++ [Prompt msg_continue].
Proof.
  intros Hq H. unfold ask, bind in H. simpl in H.
  match type of H with
  | context [guess_loop R i 0 ?n DEFAULT ?w0] =>
      destruct (guess_loop R i 0 n DEFAULT w0) as [[r1|e] w1] eqn:Hloop;
        [|discriminate];
      destruct (guess_loop_ok R i n 0 DEFAULT w0 q r1 w1 Hq eq_refl Hloop)
        as (q' & out & Hquiz & Ht & Hc & Hout)
  end.
  simpl in Hquiz, Hout.
  assert (Hq1 : nth_error (questions (quiz w1)) i = Some q').
  { rewrite Hquiz. eapply replace_nth, Hq. }
  assert (Hrev : exists w2,
             (if negb (GuessResult_eqb r1 CORRECT)
              then bind (get_question i)
                     (fun question => print (msg_reveal r1 question))
              else ret tt) w1 = (Ok tt, w2)
             /\ quiz w2 = quiz w1 /\ stdin w2 = stdin w1
             /\ stdout w2 = stdout w1 ++ reveal r1 q).
  { unfold reveal, is_correct.
    destruct (GuessResult_eqb r1 CORRECT); simpl.
    - exists w1. rewrite app_nil_r. repeat split.
    - unfold bind, get_question. rewrite Hq1. simpl.
      eexists. split; [reflexivity|]. simpl.
      rewrite (msg_reveal_title r1 q q' Ht). repeat split. }
  destruct Hrev as (w2 & Hrun2 & Hquiz2 & Hin2 & Hout2).
  unfold bind in Hrun2. rewrite Hrun2 in H.
  match type of H with
  | context [get_input ?p w2] =>
      destruct (get_input p w2) as [[a|e] w3] eqn:Hget; [|discriminate]
  end.
  apply get_input_ok in Hget. destruct Hget as (s & rest & _ & _ & Hw3).
  inversion H; subst. clear H. simpl.
  exists q', out. rewrite Hquiz2, Hout2, Hout.
  split; [exact Hquiz|]. split; [exact Ht|]. split; [exact Hc|].
  unfold msg_continue. rewrite <- !app_assoc. reflexivity.
Qed.

(** X9. When [ask] returns, its output ends with the continue prompt,
    preceded by the title in upper case unless the result is [CORRECT]:
    introduced by "The answer was" after a pass and by "No more attempts
    left, the answer was" otherwise. Only the entry asked can have
    changed, and its flag is set exactly by a [CORRECT] result. *)
Theorem ask_reveals_title (R : RandomSource) (i : nat) (w w' : world)
  (q : Movie) (r : GuessResult) :
  nth_error (questions (quiz w)) i = Some q ->
  ask R i w = (Ok r, w') ->
  (exists q' out,
      quiz w' = replace i q' (quiz w)
      /\ title q' = title q
      /\ correct_guess q' = correct_guess q || is_correct r
      /\ stdout w'
         = stdout w
           ++ [Clear; Print (msg_header (quiz w) i); Print msg_help]
           ++ out
           ++ (if is_correct r then [] else [Print (msg_reveal r q)])
           ++ [Prompt msg_continue])
  /\ msg_reveal PASS q
     = (NL ++ "The answer was:" ++ NL ++ Format.WARNING ++ Format.BOLD
           ++ Str.upper (title q) ++ Format.RESET)%string
  /\ (r <> PASS ->
      msg_reveal r q
      = (NL ++ "No more attempts left, the answer was:" ++ NL
            ++ Format.WARNING ++ Format.BOLD
            ++ Str.upper (title q) ++ Format.RESET)%string).
Proof.
  intros Hq H. split; [|split].
  - exact (ask_ok R i w w' q r Hq H).
  - reflexivity.
  - intro Hr. destruct r; try reflexivity. now elim Hr.
Qed.

Lemma ask_reveals_title_witness :
  fst (ask rotating 0 jaws_world) = Ok DEFAULT
  /\ exists out,
      stdout (snd (ask rotating 0 jaws_world))
      = [Clear; Print "[1/1] Which movie is this?"; Print msg_help]
        ++ out
        ++ [Print (NL ++ "No more attempts left, the answer was:" ++ NL
                      ++ Format.WARNING ++ Format.BOLD ++ "JAWS"
                      ++ Format.RESET)%string]
        ++ [Prompt msg_continue].
Proof.
  assert (H : ask rotating 0 jaws_world
              = (Ok DEFAULT, snd (ask rotating 0 jaws_world)))
    by (vm_compute; reflexivity).
  split; [now rewrite H|].
  destruct (ask_reveals_title rotating 0 jaws_world _ jaws DEFAULT eq_refl H)
    as ((q' & out & _ & _ & _ & Hout) & _ & _).
  exists out. exact Hout.
Defined.

(** Entries before, results, entries after, position by position: the
    title is kept and the flag is set exactly by a [CORRECT] result. *)
Inductive Scored : list Movie -> list GuessResult -> list Movie -> Prop :=
| Scored_nil : Scored [] [] []
| Scored_cons (q q' : Movie) (r : GuessResult) qs rs qs' :
    title q' = title q ->
    correct_guess q' = correct_guess q || is_correct r ->
    Scored qs rs qs' ->
    Scored (q :: qs) (r :: rs) (q' :: qs').

Lemma ask_all_ok (R : RandomSource) :
  forall todo pre w rs w',
    questions (quiz w) = pre ++ todo ->
    ask_all R (length pre) (length todo) w = (Ok rs, w') ->
    exists todo',
      questions (quiz w') = pre ++ todo' /\ Scored todo rs todo'.
Proof.
  induction todo as [|q todo IH]; intros pre w rs w' Hqs H; simpl in H.
  - inversion H; subst. exists []. split; [exact Hqs | constructor].
  - unfold bind in H.
    destruct (ask R (length pre) w) as [[r|e] w1] eqn:Hask; [|discriminate].
    assert (Hq : nth_error (questions (quiz w)) (length pre) = Some q)
      by (rewrite Hqs; apply nth_error_middle).
    destruct (ask_ok R (length pre) w w1 q r Hq Hask)
      as (q' & out & Hquiz & Ht & Hc & _).
    assert (Hqs1 : questions (quiz w1) = (pre ++ [q']) ++ todo).
    { rewrite Hquiz. unfold replace, questions at 1. simpl.
      rewrite Hqs, set_nth_app, <- app_assoc. reflexivity. }
    destruct (ask_all R (S (length pre)) (length todo) w1)
      as [[rs1|e] w2] eqn:Hall; [|discriminate].
    inversion H; subst. clear H.
    replace (S (length pre)) with (length (pre ++ [q'])) in Hall
      by (rewrite length_app; simpl; lia).
    destruct (IH (pre ++ [q']) w1 rs1 w' Hqs1 Hall) as (todo' & Hqs' & Hsc).
    exists (q' :: todo'). split.
    + rewrite Hqs', <- app_assoc. reflexivity.
    + now constructor.
Qed.

Lemma scored_length (qs qs' : list Movie) (rs : list GuessResult) :
  Scored qs rs qs' -> length rs = length qs /\ length qs' = length qs.
Proof. induction 1; simpl; [split; reflexivity | lia]. Qed.

Lemma scored_count (qs qs' : list Movie) (rs : list GuessResult) :
  Scored qs rs qs' ->
  Forall (fun q => correct_guess q = false) qs ->
  count_correct qs' = length (filter is_correct rs).
Proof.
  unfold count_correct.
  induction 1 as [|q q' r qs rs qs' Ht Hc Hs IH]; intro Hall;
    [reflexivity|].
  inversion Hall as [|? ? Hq Hrest]; subst. simpl.
  rewrite Hc, Hq. simpl. destruct (is_correct r); simpl; now rewrite IH.
Qed.

(** X10. When [start] returns, there is one result per entry, in order;
    each entry has kept its title and has its flag set exactly when it
    was set before or its result is [CORRECT]. For a quiz that starts
    with no entry solved, the number of correct answers the summary
    counts is the number of [CORRECT] results, and the verdict printed
    at the end is the one for that count. *)
Theorem start_scores (R : RandomSource) (self : MovieQuiz)
  (inp : list input_event) (k : nat) (rs : list GuessResult) (w' : world) :
  run_start R self inp k = (Ok rs, w') ->
  Scored (questions self) rs (questions (quiz w'))
  /\ length rs = length (questions self)
  /\ (Forall (fun q => correct_guess q = false) (questions self) ->
      count_correct (questions (quiz w')) = length (filter is_correct rs)
      /\ exists out,
          stdout w'
          = out ++ [Clear; Print msg_all_done]
                ++ verdict (length (filter is_correct rs)) (length rs)
                ++ [Print NL]).
Proof.
  intro H. unfold run_start in H.
  destruct (start_then_summary R _ w' rs H) as (w1 & Hall & Hsum).
  simpl in Hall.
  destruct (ask_all_ok R (questions self) [] (mkWorld self inp [] k) rs w1
              eq_refl Hall)
    as (qs' & Hqs' & Hsc).
  simpl in Hqs'. rewrite summary_run in Hsum.
  injection Hsum as Hw'. rewrite <- Hw'. simpl. rewrite Hqs'.
  destruct (scored_length _ _ _ Hsc) as [Hl1 Hl2].
  split; [exact Hsc|]. split; [exact Hl1|].
  intro Hfalse. pose proof (scored_count _ _ _ Hsc Hfalse) as Hcount.
  split; [exact Hcount|].
  exists (stdout w1). rewrite Hcount, Hl2, <- Hl1. reflexivity.
Qed.

(** Two entries; the first is solved at the second guess, the second is
    passed. *)
Definition two_world_input : list input_event :=
  [Line "Down"; Line " UP "; Line ""; Line "pass"; Line ""].

Lemma start_scores_witness :
  fst (run_start rotating (mkMovieQuiz two_titles two_entries 3)
         two_world_input 101) = Ok [CORRECT; PASS]
  /\ map correct_guess
       (questions (quiz (snd (run_start rotating
                                (mkMovieQuiz two_titles two_entries 3)
                                two_world_input 101))))
     = [true; false]
  /\ exists out,
      stdout (snd (run_start rotating (mkMovieQuiz two_titles two_entries 3)
                     two_world_input 101))
      = out ++ [Clear; Print msg_all_done; Print msg_not_bad;
                Print (msg_counts 1 1); Print NL].
Proof.
  assert (H : run_start rotating (mkMovieQuiz two_titles two_entries 3)
                two_world_input 101
              = (Ok [CORRECT; PASS],
                 snd (run_start rotating (mkMovieQuiz two_titles two_entries 3)
                        two_world_input 101)))
    by (vm_compute; reflexivity).
  split; [now rewrite H|]. split; [vm_compute; reflexivity|].
  destruct (start_scores rotating _ _ _ _ _ H) as (_ & _ & Hc).
  destruct Hc as (_ & out & Hout).
  - vm_compute. repeat constructor.
  - exists out. exact Hout.
Defined.

(** ** The session when it does not return *)

Definition farewell : string :=
  (NL ++ NL ++ "Giving up are we? Okay, bye 👋")%string.

(** The state an exception raised while the entry at [i] is asked
    leaves behind. *)
Definition abnormal_at (i : nat) (e : exn) (w' : world) : Prop :=
  match e with
  | SystemExit => exists out, stdout w' = out ++ [Print farewell]
  | EOFError => stdin w' = [] /\ exists out p, stdout w' = out ++ [Prompt p]
  | IndexError =>
      forall q, nth_error (questions (quiz w')) i = Some q -> unspent q = []
  | OSError => False
  end.

Definition raises_at {A} (i : nat) (m : M A) : Prop :=
  forall w e w', m w = (Raise e, w') -> abnormal_at i e w'.

Lemma raises_never {A} (i : nat) (m : M A) :
  (forall w, exists a w', m w = (Ok a, w')) -> raises_at i m.
Proof.
  intros H w e w' Hr. destruct (H w) as (a & w1 & E). congruence.
Qed.

Lemma raises_bind {A B} (i : nat) (m : M A) (f : A -> M B) :
  raises_at i m -> (forall a, raises_at i (f a)) -> raises_at i (bind m f).
Proof.
  intros Hm Hf w e w' H. unfold bind in H.
  destruct (m w) as [[a|e1] w1] eqn:E.
  - eapply Hf. exact H.
  - inversion H; subst. eapply Hm. exact E.
Qed.

Lemma raises_print (i : nat) (s : string) : raises_at i (print s).
Proof. apply raises_never. intro w. unfold print. eauto. Qed.

Lemma raises_ret {A} (i : nat) (a : A) : raises_at i (ret a).
Proof. apply raises_never. intro w. unfold ret. eauto. Qed.

Lemma raises_get_quiz (i : nat) : raises_at i get_quiz.
Proof. apply raises_never. intro w. unfold get_quiz. eauto. Qed.

Lemma raises_get_question (i : nat) : raises_at i (get_question i).
Proof.
  intros w e w' H. unfold get_question in H.
  destruct (nth_error (questions (quiz w)) i) as [q|] eqn:E; [discriminate|].
  inversion H; subst. simpl. intros q Hq. congruence.
Qed.

Lemma raises_get_input (i : nat) (p : string) : raises_at i (get_input p).
Proof.
  intros w e w' H. unfold get_input, bind, input in H.
  destruct (stdin w) as [|[s|] rest]; simpl in H; inversion H; subst; simpl.
  - split; [reflexivity|]. now exists (stdout w), p.
  - now exists (stdout w ++ [Prompt p]).
Qed.

Lemma random_anagram_raise (R : RandomSource) (k : nat) (q : Movie)
  (e : exn) :
  random_anagram R k q = Raise e -> e = IndexError /\ unspent q = [].
Proof.
  unfold random_anagram, choice.
  destruct (unspent q); [|discriminate]. intro H. inversion H. now split.
Qed.

Lemma raises_call_random_anagram (R : RandomSource) (i : nat) :
  raises_at i (call_random_anagram R i).
Proof.
  intros w e w' H. unfold call_random_anagram, bind, get_question, get_draws in H.
  destruct (nth_error (questions (quiz w)) i) as [q|] eqn:E; simpl in H.
  - destruct (random_anagram R (draws w) q) as [[a q']|e1] eqn:Er;
      simpl in H; [discriminate|].
    inversion H; subst. apply random_anagram_raise in Er.
    destruct Er as [-> Hu]. simpl. intros q0 Hq0. congruence.
  - inversion H; subst. simpl. intros q Hq. congruence.
Qed.

Lemma raises_set_correct_guess (i : nat) : raises_at i (set_correct_guess i).
Proof.
  unfold set_correct_guess. apply raises_bind; [apply raises_get_question|].
  intro q. apply raises_never. intro w. unfold set_question. eauto.
Qed.

Lemma raises_match_answer (i : nat) (a : string) :
  raises_at i (match_answer i a).
Proof.
  unfold match_answer. apply raises_bind; [apply raises_get_question|].
  intro q.
  destruct (String.eqb a "next"); [apply raises_ret|].
  destruct (String.eqb a "pass"); [apply raises_ret|].
  destruct (String.eqb a (title_lower q)).
  - apply raises_bind; [apply raises_set_correct_guess|]. intros _.
    apply raises_bind; [apply raises_print | intros _; apply raises_ret].
  - apply raises_bind; [apply raises_print | intros _; apply raises_ret].
Qed.

Lemma raises_attempt (R : RandomSource) (i x : nat) (r : GuessResult) :
  raises_at i (attempt R i x r).
Proof.
  unfold attempt. apply raises_bind.
  - unfold show_anagram. destruct (GuessResult_eqb r DEFAULT).
    + apply raises_bind; [apply raises_call_random_anagram|].
      intro a. apply raises_print.
    + apply raises_ret.
  - intros _. unfold read_guess.
    apply raises_bind; [apply raises_get_quiz|]. intro self.
    apply raises_bind; [apply raises_get_input|]. intro answer.
    apply raises_match_answer.
Qed.

Lemma raises_guess_loop (R : RandomSource) (i : nat) :
  forall n x r, raises_at i (guess_loop R i x n r).
Proof.
  induction n as [|n IH]; intros x r; simpl.
  - apply raises_ret.
  - apply raises_bind; [apply raises_attempt|].
    intro r'. destruct (ends_entry r'); [apply raises_ret | apply IH].
Qed.

Lemma raises_ask (R : RandomSource) (i : nat) : raises_at i (ask R i).
Proof.
  unfold ask.
  apply raises_bind; [apply raises_never; intro w; unfold clear; eauto|].
  intros _. apply raises_bind; [apply raises_get_quiz|]. intro self.
  apply raises_bind; [apply raises_print|]. intros _.
  apply raises_bind; [apply raises_print|]. intros _.
  apply raises_bind; [apply raises_guess_loop|]. intro result.
  apply raises_bind.
  - destruct (negb (GuessResult_eqb result CORRECT)).
    + apply raises_bind; [apply raises_get_question|].
      intro q. apply raises_print.
    + apply raises_ret.
  - intros _. apply raises_bind; [apply raises_get_input|].
    intros _. apply raises_ret.
Qed.

(** The state an exception raised by the session leaves behind. *)
Definition abnormal (e : exn) (w' : world) : Prop :=
  match e with
  | SystemExit => exists out, stdout w' = out ++ [Print farewell]
  | EOFError => stdin w' = [] /\ exists out p, stdout w' = out ++ [Prompt p]
  | IndexError =>
      exists q, In q (questions (quiz w')) /\ unspent q = []
  | OSError => False
  end.

Lemma same_entries_length (a b : MovieQuiz) :
  same_entries a b -> length (questions b) = length (questions a).
Proof.
  intros (_ & _ & H & _).
  rewrite <- (length_map title (questions b)), H. apply length_map.
Qed.

Lemma abnormal_at_in_range (i : nat) (e : exn) (w' : world) :
  i < length (questions (quiz w')) -> abnormal_at i e w' -> abnormal e w'.
Proof.
  intros Hi H. destruct e; simpl in *; try assumption.
  destruct (nth_error (questions (quiz w')) i) as [q|] eqn:E.
  - exists q. split; [eapply nth_error_In; exact E | now apply H].
  - apply nth_error_None in E. lia.
Qed.

Lemma ask_all_raises (R : RandomSource) :
  forall n i w e w',
    i + n <= length (questions (quiz w)) ->
    ask_all R i n w = (Raise e, w') ->
    abnormal e w'.
Proof.
  induction n as [|n IH]; intros i w e w' Hn H; simpl in H; [discriminate|].
  unfold bind in H.
  pose proof (same_entries_length _ _ (keeps_ask R i w)) as Hlen.
  destruct (ask R i w) as [[r|e1] w1] eqn:Hask; simpl in Hlen.
  - destruct (ask_all R (S i) n w1) as [[rs|e2] w2] eqn:Hall; [discriminate|].
    inversion H; subst. apply (IH (S i) w1); [lia | exact Hall].
  - inversion H; subst. apply (abnormal_at_in_range i); [lia|].
    eapply raises_ask. exact Hask.
Qed.

(** X11. When [start] ends by an exception, it is one of three. After
    [SystemExit] (Ctrl+C at a prompt) the last thing printed is the
    farewell. After [EOFError] the input is used up and the last thing
    written is a prompt. After [IndexError] some entry has every anagram
    of its pool in [_spent]. *)
Theorem start_abnormal_end (R : RandomSource) (self : MovieQuiz)
  (inp : list input_event) (k : nat) (e : exn) (w' : world) :
  run_start R self inp k = (Raise e, w') ->
  match e with
  | SystemExit => exists out, stdout w' = out ++ [Print farewell]
  | EOFError => stdin w' = [] /\ exists out p, stdout w' = out ++ [Prompt p]
  | IndexError => exists q, In q (questions (quiz w')) /\ unspent q = []
  | OSError => False
  end.
Proof.
  intro H. unfold run_start, start, bind, get_quiz in H. simpl in H.
  destruct (ask_all R 0 (length (questions self)) (mkWorld self inp [] k))
    as [[rs|e1] w1] eqn:Hall.
  - rewrite summary_run in H. discriminate.
  - inversion H; subst.
    apply (ask_all_raises R (length (questions self)) 0
             (mkWorld self inp [] k)); [simpl; lia|].
    exact Hall.
Qed.

Lemma start_abnormal_end_witness :
  fst (run_start rotating (quiz up_world) [Line "Down"; CtrlC] 0)
  = Raise SystemExit
  /\ exists out,
      stdout (snd (run_start rotating (quiz up_world) [Line "Down"; CtrlC] 0))
      = out ++ [Print farewell].
Proof.
  assert (H : run_start rotating (quiz up_world) [Line "Down"; CtrlC] 0
              = (Raise SystemExit,
                 snd (run_start rotating (quiz up_world)
                        [Line "Down"; CtrlC] 0)))
    by (vm_compute; reflexivity).
  split; [now rewrite H|].
  exact (start_abnormal_end rotating _ _ _ _ _ H).
Defined.

(** ** Reading a guess: padding and letter case *)

Lemma chars_app (a b : string) :
  Str.chars (a ++ b) = Str.chars a ++ Str.chars b.
Proof. induction a as [|c a IH]; simpl; [reflexivity | now rewrite IH]. Qed.

Lemma of_chars_app (l1 l2 : list ascii) :
  Str.of_chars (l1 ++ l2) = (Str.of_chars l1 ++ Str.of_chars l2)%string.
Proof. induction l1 as [|c l1 IH]; simpl; [reflexivity | now rewrite IH]. Qed.

(** A string of white space only. *)
Definition blank (p : string) : Prop :=
  forallb Str.is_space (Str.chars p) = true.

Lemma lstrip_blank_app (p s : string) :
  blank p -> Str.lstrip (p ++ s) = Str.lstrip s.
Proof.
  unfold blank. induction p as [|c p IH]; simpl; intro H; [reflexivity|].
  apply andb_true_iff in H. destruct H as [Hc Hp]. rewrite Hc. now apply IH.
Qed.

Lemma lstrip_blank (p : string) : blank p -> Str.lstrip p = "".
Proof.
  unfold blank. induction p as [|c p IH]; simpl; intro H; [reflexivity|].
  apply andb_true_iff in H. destruct H as [Hc Hp]. rewrite Hc. now apply IH.
Qed.

Lemma reverse_app (a b : string) :
  Str.reverse (a ++ b) = (Str.reverse b ++ Str.reverse a)%string.
Proof.
  unfold Str.reverse. now rewrite chars_app, rev_app_distr, of_chars_app.
Qed.

Lemma blank_reverse (p : string) : blank p -> blank (Str.reverse p).
Proof.
  unfold blank, Str.reverse. rewrite chars_of_chars.
  rewrite !forallb_forall. intros H c Hc. apply H. now apply in_rev.
Qed.

Lemma rstrip_app_blank (s p : string) :
  blank p -> Str.rstrip (s ++ p) = Str.rstrip s.
Proof.
  intro H. unfold Str.rstrip.
  rewrite reverse_app, lstrip_blank_app; [reflexivity|].
  now apply blank_reverse.
Qed.

Lemma rstrip_blank (p : string) : blank p -> Str.rstrip p = "".
Proof.
  intro H. unfold Str.rstrip.
  rewrite lstrip_blank; [reflexivity | now apply blank_reverse].
Qed.

Lemma strip_app_blank (s p : string) :
  blank p -> Str.strip (s ++ p) = Str.strip s.
Proof.
  intro H. unfold Str.strip. induction s as [|c s IH]; simpl.
  - rewrite (lstrip_blank p H). reflexivity.
  - destruct (Str.is_space c); [exact IH|].
    change (String c (s ++ p)) with (String c s ++ p)%string.
    now apply rstrip_app_blank.
Qed.

(** Padding a line with white space does not change what [strip] gives. *)
Lemma strip_padded (p1 s p2 : string) :
  blank p1 -> blank p2 -> Str.strip (p1 ++ s ++ p2) = Str.strip s.
Proof.
  intros H1 H2. unfold Str.strip at 1. rewrite (lstrip_blank_app p1 _ H1).
  fold (Str.strip (s ++ p2)). now apply strip_app_blank.
Qed.

Lemma is_space_lower_char (c : ascii) :
  Str.is_space (Str.lower_char c) = Str.is_space c.
Proof. destruct c as [[] [] [] [] [] [] [] []]; reflexivity. Qed.

Lemma chars_map (f : ascii -> ascii) (s : string) :
  Str.chars (Str.map f s) = map f (Str.chars s).
Proof. induction s as [|c s IH]; simpl; [reflexivity | now rewrite IH]. Qed.

Lemma map_of_chars (f : ascii -> ascii) (l : list ascii) :
  Str.map f (Str.of_chars l) = Str.of_chars (map f l).
Proof. induction l as [|c l IH]; simpl; [reflexivity | now rewrite IH]. Qed.

Lemma lower_lstrip (s : string) :
  Str.lower (Str.lstrip s) = Str.lstrip (Str.lower s).
Proof.
  unfold Str.lower. induction s as [|c s IH]; simpl; [reflexivity|].
  rewrite is_space_lower_char. destruct (Str.is_space c); [exact IH|].
  reflexivity.
Qed.

Lemma lower_reverse (s : string) :
  Str.lower (Str.reverse s) = Str.reverse (Str.lower s).
Proof.
  unfold Str.lower, Str.reverse.
  now rewrite map_of_chars, chars_map, map_rev.
Qed.

Lemma lower_strip (s : string) :
  Str.lower (Str.strip s) = Str.strip (Str.lower s).
Proof.
  unfold Str.strip, Str.rstrip.
  now rewrite lower_reverse, lower_lstrip, lower_reverse, lower_lstrip.
Qed.

(** The world with the line [s] typed next. *)
Definition with_line (w : world) (s : string) (rest : list input_event)
  : world :=
  mkWorld (quiz w) (Line s :: rest) (stdout w) (draws w).

(** X12. Reading a guess does not tell a line from the same line typed
    in another letter case and padded with white space on either side:
    the result, the entry's flag, what is printed and what is left of
    the input are the same. *)
Theorem read_guess_ignores_padding_and_case (i x : nat) (w : world)
  (s s' p1 p2 : string) (rest : list input_event) :
  blank p1 -> blank p2 -> Str.lower s' = Str.lower s ->
  read_guess i x (with_line w (p1 ++ s' ++ p2) rest)
  = read_guess i x (with_line w s rest).
Proof.
  intros H1 H2 Hcase.
  assert (E : Str.lower (Str.strip (p1 ++ s' ++ p2))
              = Str.lower (Str.strip s)).
  { rewrite (strip_padded p1 s' p2 H1 H2), !lower_strip. now rewrite Hcase. }
  unfold read_guess, bind, get_quiz, get_input, bind, input, with_line, ret.
  simpl. rewrite E. reflexivity.
Qed.

Lemma read_guess_ignores_padding_and_case_witness :
  read_guess 0 0 (with_line jaws_world ("  " ++ "JaWs" ++ " ") [])
  = read_guess 0 0 (with_line jaws_world "jaws" [])
  /\ fst (read_guess 0 0 (with_line jaws_world "jaws" [])) = Ok CORRECT.
Proof.
  split; [|reflexivity].
  apply (read_guess_ignores_padding_and_case 0 0 jaws_world
           "jaws" "JaWs" "  " " " []); reflexivity.
Defined.

(** ** [_load_movie_titles]: the word list, one title per line *)

Definition CR : string := String (ascii_of_nat 13) "".

(** A title that can stand on one line. *)
Definition one_line (t : string) : Prop :=
  forallb (fun c => negb (Str.is_linebreak c)) (Str.chars t) = true.

(** The file with one title per line, each line ended by [eol]. *)
Fixpoint unlines (eol : string) (titles : list string) : string :=
  match titles with
  | [] => ""
  | t :: rest => (t ++ eol ++ unlines eol rest)%string
  end.

Lemma splitlines_aux_nil : Str.splitlines_aux "" [] = [].
Proof. reflexivity. Qed.

Lemma splitlines_aux_lf (t rest : string) :
  one_line t ->
  forall cur,
    Str.splitlines_aux (t ++ NL ++ rest) cur
    = Str.of_chars (rev cur ++ Str.chars t) :: Str.splitlines_aux rest [].
Proof.
  unfold one_line. induction t as [|c t IH]; simpl; intros H cur.
  - rewrite app_nil_r. now destruct rest.
  - apply andb_true_iff in H. destruct H as [Hc Ht].
    apply negb_true_iff in Hc. rewrite Hc, (IH Ht). simpl.
    now rewrite <- app_assoc.
Qed.

Lemma splitlines_aux_crlf (t rest : string) :
  one_line t ->
  forall cur,
    Str.splitlines_aux (t ++ (CR ++ NL) ++ rest) cur
    = Str.of_chars (rev cur ++ Str.chars t) :: Str.splitlines_aux rest [].
Proof.
  unfold one_line. induction t as [|c t IH]; simpl; intros H cur.
  - rewrite app_nil_r. reflexivity.
  - apply andb_true_iff in H. destruct H as [Hc Ht].
    apply negb_true_iff in Hc. rewrite Hc, (IH Ht). simpl.
    now rewrite <- app_assoc.
Qed.

Lemma unlines_cons (eol t : string) (rest : list string) :
  unlines eol (t :: rest) = (t ++ eol ++ unlines eol rest)%string.
Proof. reflexivity. Qed.

Lemma splitlines_unlines (eol : string) (titles : list string) :
  eol = NL \/ eol = (CR ++ NL)%string ->
  Forall one_line titles ->
  Str.splitlines (unlines eol titles) = titles.
Proof.
  intros Heol H. unfold Str.splitlines.
  induction H as [|t rest Ht _ IH]; [reflexivity|].
  rewrite unlines_cons.
  destruct Heol as [E|E]; rewrite E in *.
  - rewrite (splitlines_aux_lf t _ Ht), IH.
    cbn [rev app]. now rewrite of_chars_chars.
  - rewrite (splitlines_aux_crlf t _ Ht), IH.
    cbn [rev app]. now rewrite of_chars_chars.
Qed.

(** X13. A word list written one title per line, every line ended by a
    line feed or by carriage return and line feed, loads to exactly
    those titles in the order of the file, empty lines included; the
    titles are not trimmed. *)
Theorem load_movie_titles_lines (fs : filesystem) (dir filename eol : string)
  (titles : list string) :
  eol = NL \/ eol = (CR ++ NL)%string ->
  Forall one_line titles ->
  fs (join_path dir filename) = Some (unlines eol titles) ->
  _load_movie_titles fs dir filename = Ok titles.
Proof.
  intros Heol Ht Hfs. unfold _load_movie_titles. rewrite Hfs.
  now rewrite splitlines_unlines.
Qed.

Definition three_lines : list string := ["Jaws"; ""; " Up "].

Definition dos_word_list : filesystem :=
  fun path =>
    if String.eqb path "/quiz/movies.txt"
    then Some (unlines (CR ++ NL) three_lines)
    else None.

Lemma load_movie_titles_lines_witness :
  _load_movie_titles dos_word_list "/quiz" "movies.txt"
  = Ok ["Jaws"; ""; " Up "].
Proof.
  apply (load_movie_titles_lines dos_word_list "/quiz" "movies.txt"
           (CR ++ NL) three_lines).
  - right. reflexivity.
  - repeat constructor.
  - reflexivity.
Defined.

(** ** The program *)

(** [if __name__ == '__main__': quiz = MovieQuiz(); quiz.start()], with
    the defaults of [__init__]. The value, when the program ends, is
    how it ended, the input it left unread and what it wrote. *)
Definition main (R : RandomSource) (fuel : nat) (fs : filesystem)
  (dir : string) (inp : list input_event)
  : option (outcome (list GuessResult)
            * list input_event * list output_event) :=
  match __init__ R fuel fs dir "movies.txt" 3 0 with
  | None => None
  | Some (Raise e, _) => Some (Raise e, inp, [])
  | Some (Ok self, k) =>
      let (o, w) := run_start R self inp k in
      Some (o, stdin w, stdout w)
  end.

(** X14. Started beside a missing or unreadable [movies.txt] the
    program ends with [OSError] before it writes or reads anything;
    beside an empty [movies.txt] it asks nothing, reads nothing and
    writes the heading and the celebration of the summary. *)
Theorem main_without_titles (R : RandomSource) (fuel : nat)
  (fs : filesystem) (dir : string) (inp : list input_event) :
  (fs (join_path dir "movies.txt") = None ->
   main R fuel fs dir inp = Some (Raise OSError, inp, []))
  /\ (fs (join_path dir "movies.txt") = Some "" ->
      main R fuel fs dir inp
      = Some (Ok [], inp,
              [Clear; Print msg_all_done; Print msg_all_right; Print NL])).
Proof.
  split; intro H; unfold main.
  - unfold __init__, _load_movie_titles. now rewrite H.
  - now rewrite (init_empty_file R fuel fs dir "movies.txt" 3 0 H).
Qed.

Lemma main_without_titles_witness :
  main rotating 10 no_files "/quiz" [Line "jaws"]
  = Some (Raise OSError, [Line "jaws"], [])
  /\ main rotating 10 empty_word_list "/quiz" [Line "jaws"]
     = Some (Ok [], [Line "jaws"],
             [Clear; Print msg_all_done; Print msg_all_right; Print NL]).
Proof.
  destruct (main_without_titles rotating 10 no_files "/quiz" [Line "jaws"])
    as [H1 _].
  destruct (main_without_titles rotating 10 empty_word_list "/quiz"
              [Line "jaws"]) as [_ H2].
  split; [apply H1 | apply H2]; reflexivity.
Defined.

(** ** Titles that are not trimmed *)

(** [lstrip] on the list of characters. *)
Fixpoint drop_space (l : list ascii) : list ascii :=
  match l with
  | [] => []
  | c :: l' => if Str.is_space c then drop_space l' else l
  end.

Lemma chars_lstrip (s : string) :
  Str.chars (Str.lstrip s) = drop_space (Str.chars s).
Proof.
  induction s as [|c s IH]; simpl; [reflexivity|].
  destruct (Str.is_space c); [exact IH | reflexivity].
Qed.

Lemma chars_strip (s : string) :
  Str.chars (Str.strip s)
  = rev (drop_space (rev (drop_space (Str.chars s)))).
Proof.
  unfold Str.strip, Str.rstrip, Str.reverse.
  now rewrite !chars_of_chars, chars_lstrip, chars_of_chars, chars_lstrip.
Qed.

Lemma drop_space_length (l : list ascii) :
  length (drop_space l) <= length l.
Proof.
  induction l as [|c l IH]; simpl; [lia|].
  destruct (Str.is_space c); simpl; lia.
Qed.

Lemma drop_space_same (l : list ascii) :
  length (drop_space l) = length l -> drop_space l = l.
Proof.
  destruct l as [|c l]; simpl; [reflexivity|].
  destruct (Str.is_space c); [|reflexivity].
  pose proof (drop_space_length l). lia.
Qed.

Lemma drop_space_idem (l : list ascii) :
  drop_space (drop_space l) = drop_space l.
Proof.
  induction l as [|c l IH]; simpl; [reflexivity|].
  destruct (Str.is_space c) eqn:E; [exact IH|]. simpl. now rewrite E.
Qed.

Lemma drop_space_snoc (l : list ascii) (x : ascii) :
  Str.is_space x = false -> drop_space (l ++ [x]) = drop_space l ++ [x].
Proof.
  intro Hx. induction l as [|c l IH]; simpl.
  - now rewrite Hx.
  - destruct (Str.is_space c); [exact IH | reflexivity].
Qed.

Definition strip_chars (l : list ascii) : list ascii :=
  rev (drop_space (rev (drop_space l))).

Lemma drop_space_head (l : list ascii) :
  drop_space l = []
  \/ exists x m, drop_space l = x :: m /\ Str.is_space x = false.
Proof.
  induction l as [|c l IH]; simpl; [now left|].
  destruct (Str.is_space c) eqn:E; [exact IH|].
  right. now exists c, l.
Qed.

Lemma strip_chars_head (l : list ascii) :
  strip_chars l = []
  \/ exists x m, drop_space l = x :: m
                 /\ Str.is_space x = false
                 /\ strip_chars l = x :: rev (drop_space (rev m)).
Proof.
  unfold strip_chars.
  destruct (drop_space_head l) as [E|(x & m & E & Hx)].
  - left. now rewrite E.
  - right. exists x, m. split; [exact E|]. split; [exact Hx|].
    rewrite E. simpl. rewrite (drop_space_snoc _ _ Hx), rev_app_distr.
    reflexivity.
Qed.

Lemma strip_chars_idem (l : list ascii) :
  strip_chars (strip_chars l) = strip_chars l.
Proof.
  destruct (strip_chars_head l) as [E|(x & m & _ & Hx & E)].
  - rewrite E. reflexivity.
  - rewrite E. unfold strip_chars. simpl. rewrite Hx. simpl.
    rewrite rev_involutive, (drop_space_snoc _ _ Hx), drop_space_idem.
    rewrite rev_app_distr. reflexivity.
Qed.

Lemma strip_chars_same (l : list ascii) :
  length (strip_chars l) = length l -> strip_chars l = l.
Proof.
  unfold strip_chars. rewrite length_rev. intro H.
  pose proof (drop_space_length (rev (drop_space l))) as H1.
  pose proof (drop_space_length l) as H2.
  rewrite length_rev in H1.
  assert (E1 : drop_space l = l) by (apply drop_space_same; lia).
  rewrite E1 in *.
  assert (E2 : drop_space (rev l) = rev l)
    by (apply drop_space_same; rewrite length_rev; lia).
  rewrite E2. apply rev_involutive.
Qed.

Lemma chars_inj (a b : string) : Str.chars a = Str.chars b -> a = b.
Proof.
  intro H. rewrite <- (of_chars_chars a), <- (of_chars_chars b). now rewrite H.
Qed.

Lemma strip_idem (s : string) : Str.strip (Str.strip s) = Str.strip s.
Proof.
  apply chars_inj. rewrite !chars_strip. apply strip_chars_idem.
Qed.

Lemma strip_same_length (s : string) :
  String.length (Str.strip s) = String.length s -> Str.strip s = s.
Proof.
  intro H. apply chars_inj. rewrite chars_strip.
  apply strip_chars_same. unfold strip_chars.
  rewrite <- chars_strip, !length_chars. exact H.
Qed.

Lemma length_lower (s : string) :
  String.length (Str.lower s) = String.length s.
Proof.
  unfold Str.lower. induction s as [|c s IH]; simpl;
    [reflexivity | now rewrite IH].
Qed.

(** A typed line is never matched to a title that [strip] would change. *)
Lemma classify_untrimmed (t s : string) :
  Str.strip t <> t ->
  classify (Str.lower t) (Str.lower (Str.strip s)) <> CORRECT.
Proof.
  intros Ht H. apply classify_correct_iff in H. destruct H as [E _].
  apply Ht. apply strip_same_length.
  rewrite <- (length_lower (Str.strip t)), <- (length_lower t).
  f_equal. rewrite lower_strip, <- E, <- lower_strip, strip_idem.
  reflexivity.
Qed.

(** A round that returns classifies a typed line. *)
Lemma attempt_classifies (R : RandomSource) (i x : nat)
  (res r : GuessResult) (w w' : world) (q : Movie) :
  nth_error (questions (quiz w)) i = Some q ->
  attempt R i x res w = (Ok r, w') ->
  exists s, r = classify (title_lower q) (Str.lower (Str.strip s)).
Proof.
  intros Hq H. unfold attempt, bind in H.
  destruct (show_anagram R i res w) as [[[]|e] w1] eqn:Hs; [|discriminate].
  assert (Hq1 : exists q1, nth_error (questions (quiz w1)) i = Some q1
                           /\ title q1 = title q).
  { destruct res;
      try (unfold show_anagram in Hs; simpl in Hs; inversion Hs; subst;
           now exists q).
    destruct (fresh_count q) as [|d] eqn:Hf.
    - rewrite (show_anagram_exhausted R i w q Hq Hf) in Hs. discriminate.
    - destruct (show_anagram_default R i w q Hq) as (a & _ & Hs'); [lia|].
      rewrite Hs' in Hs.
      inversion Hs; subst. exists (shown q a). split; [|reflexivity].
      unfold put, questions. simpl. eapply nth_error_set_nth, Hq. }
  destruct Hq1 as (q1 & Hq1 & Ht1).
  destruct (read_guess_ok i x w1 w' r H) as (s & rest & Hin1).
  rewrite (read_guess_line_full i x w1 q1 s rest Hq1 Hin1) in H.
  inversion H; subst. exists s. unfold title_lower. now rewrite Ht1.
Qed.

Lemma guess_loop_untrimmed (R : RandomSource) (i : nat) :
  forall n x res w q r w',
    nth_error (questions (quiz w)) i = Some q ->
    Str.strip (title q) <> title q ->
    res <> CORRECT ->
    guess_loop R i x n res w = (Ok r, w') ->
    r <> CORRECT.
Proof.
  induction n as [|n IH]; intros x res w q r w' Hq Ht Hres H; simpl in H.
  - inversion H; subst. exact Hres.
  - unfold bind in H.
    destruct (attempt R i x res w) as [[r1|e] w1] eqn:Ha; [|discriminate].
    destruct (attempt_classifies R i x res r1 w w1 q Hq Ha) as (s & Hr1).
    assert (Hn1 : r1 <> CORRECT)
      by (rewrite Hr1; now apply classify_untrimmed).
    destruct (attempt_ok R i x res r1 w w1 q Hq Ha)
      as (q1 & out1 & Hquiz1 & Ht1 & _ & _).
    destruct (ends_entry r1).
    + inversion H; subst. exact Hn1.
    + assert (Hq1 : nth_error (questions (quiz w1)) i = Some q1).
      { rewrite Hquiz1. eapply replace_nth, Hq. }
      apply (IH (S x) r1 w1 q1 r w' Hq1); [now rewrite Ht1 | exact Hn1 | exact H].
Qed.

(** X15. An entry whose title begins or ends with white space (the
    loader keeps the lines as they are, the answers are trimmed) cannot
    be solved: whenever its attempt loop returns, the result is not
    [CORRECT] and the entry's flag is what it was. *)
Theorem untrimmed_title_never_solved (R : RandomSource) (i : nat)
  (w w' : world) (q : Movie) (r : GuessResult) :
  nth_error (questions (quiz w)) i = Some q ->
  Str.strip (title q) <> title q ->
  guess_loop R i 0 (max_guesses (quiz w)) DEFAULT w = (Ok r, w') ->
  r <> CORRECT
  /\ exists q', nth_error (questions (quiz w')) i = Some q'
                /\ correct_guess q' = correct_guess q.
Proof.
  intros Hq Ht H.
  assert (Hr : r <> CORRECT).
  { eapply guess_loop_untrimmed; try eassumption. discriminate. }
  split; [exact Hr|].
  destruct (guess_loop_ok R i _ 0 DEFAULT w q r w' Hq eq_refl H)
    as (q' & out & Hquiz & _ & Hc & _).
  exists q'. split; [rewrite Hquiz; eapply replace_nth, Hq|].
  rewrite Hc. destruct r; try apply orb_false_r. now elim Hr.
Qed.

(** The title "Up " with a space after it, answered with the title. *)
Definition up_space : Movie := new_Movie "Up " ["PU"; "UP"].

Definition up_space_world : world :=
  mkWorld (mkMovieQuiz ["Up "] [up_space] 2)
          [Line "Up "; Line "up"] [] 0.

Lemma untrimmed_title_never_solved_witness :
  Str.strip "Up " <> "Up "
  /\ fst (guess_loop rotating 0 0 2 DEFAULT up_space_world) = Ok INCORRECT
  /\ INCORRECT <> CORRECT.
Proof.
  assert (Ht : Str.strip (title up_space) <> title up_space)
    by (vm_compute; discriminate).
  assert (H : guess_loop rotating 0 0 (max_guesses (quiz up_space_world))
                DEFAULT up_space_world
              = (Ok INCORRECT,
                 snd (guess_loop rotating 0 0 2 DEFAULT up_space_world)))
    by (vm_compute; reflexivity).
  split; [exact Ht|]. split; [vm_compute; reflexivity|].
  exact (proj1 (untrimmed_title_never_solved rotating 0 up_space_world _
                  up_space INCORRECT eq_refl Ht H)).
Defined.

(** ** The words of an anagram *)

(** A word as [str.split] gives them: not empty, no white space. *)
Definition is_word (w : string) : Prop :=
  w <> "" /\ forallb (fun c => negb (Str.is_space c)) (Str.chars w) = true.

Lemma split_aux_word (w s : string) :
  forallb (fun c => negb (Str.is_space c)) (Str.chars w) = true ->
  forall cur,
    Str.split_aux (w ++ s) cur = Str.split_aux s (rev (Str.chars w) ++ cur).
Proof.
  induction w as [|c w IH]; simpl; intros H cur; [reflexivity|].
  apply andb_true_iff in H. destruct H as [Hc Hw].
  apply negb_true_iff in Hc. rewrite Hc, (IH Hw). now rewrite <- app_assoc.
Qed.

Lemma rev_chars_nonempty (w : string) : w <> "" -> rev (Str.chars w) <> [].
Proof.
  intros H E. apply H. apply chars_inj.
  rewrite <- (rev_involutive (Str.chars w)), E. reflexivity.
Qed.

Lemma append_empty (w : string) : (w ++ "")%string = w.
Proof. induction w as [|c w IH]; simpl; [reflexivity | now rewrite IH]. Qed.

Lemma split_aux_last (w : string) :
  is_word w -> Str.split_aux w [] = [w].
Proof.
  intros [Hne Hw]. rewrite <- (append_empty w) at 1.
  rewrite (split_aux_word w "" Hw), app_nil_r. simpl.
  pose proof (rev_chars_nonempty w Hne) as Hr.
  destruct (rev (Str.chars w)) as [|c l] eqn:E; [now elim Hr|].
  rewrite <- E, rev_involutive, of_chars_chars. reflexivity.
Qed.

Lemma split_aux_next (w s : string) :
  is_word w ->
  Str.split_aux (w ++ " " ++ s) [] = w :: Str.split_aux s [].
Proof.
  intros [Hne Hw]. rewrite (split_aux_word w _ Hw), app_nil_r. simpl.
  pose proof (rev_chars_nonempty w Hne) as Hr.
  destruct (rev (Str.chars w)) as [|c l] eqn:E; [now elim Hr|].
  rewrite <- E, rev_involutive, of_chars_chars. reflexivity.
Qed.

(** Joining words with single spaces and splitting gives the words. *)
Lemma split_join (ws : list string) :
  Forall is_word ws -> Str.split (Str.join " " ws) = ws.
Proof.
  unfold Str.split, Str.join.
  induction 1 as [|w ws Hw Hws IH]; [reflexivity|].
  destruct ws as [|w2 ws].
  - simpl. now apply split_aux_last.
  - change (String.concat " " (w :: w2 :: ws))
      with (w ++ " " ++ String.concat " " (w2 :: ws))%string.
    rewrite (split_aux_next w _ Hw), IH. reflexivity.
Qed.

Lemma split_aux_words (s : string) :
  forall cur,
    forallb (fun c => negb (Str.is_space c)) cur = true ->
    Forall is_word (Str.split_aux s cur).
Proof.
  assert (Hcur : forall c cur,
             forallb (fun c => negb (Str.is_space c)) (c :: cur) = true ->
             is_word (Str.of_chars (rev (c :: cur)))).
  { intros c cur H. split.
    - intro E. apply (f_equal Str.chars) in E. rewrite chars_of_chars in E.
      simpl in E. now destruct (rev cur).
    - rewrite chars_of_chars. rewrite forallb_forall in *.
      intros x Hx. apply H. now apply in_rev. }
  induction s as [|c s IH]; simpl; intros cur H.
  - destruct cur as [|d cur]; [constructor|].
    constructor; [now apply Hcur | constructor].
  - destruct (Str.is_space c) eqn:E.
    + destruct cur as [|d cur]; [now apply IH|].
      constructor; [now apply Hcur | now apply IH].
    + apply IH. simpl. now rewrite E, H.
Qed.

Lemma split_words (s : string) : Forall is_word (Str.split s).
Proof. now apply split_aux_words. Qed.

Lemma is_space_upper_char (c : ascii) :
  Str.is_space (Str.upper_char c) = Str.is_space c.
Proof. destruct c as [[] [] [] [] [] [] [] []]; reflexivity. Qed.

Lemma upper_app (a b : string) :
  Str.upper (a ++ b) = (Str.upper a ++ Str.upper b)%string.
Proof.
  unfold Str.upper. induction a as [|c a IH]; simpl;
    [reflexivity | now rewrite IH].
Qed.

Lemma upper_join (ws : list string) :
  Str.upper (Str.join " " ws) = Str.join " " (map Str.upper ws).
Proof.
  unfold Str.join. induction ws as [|w ws IH]; [reflexivity|].
  destruct ws as [|w2 ws]; [reflexivity|].
  change (String.concat " " (w :: w2 :: ws))
    with (w ++ " " ++ String.concat " " (w2 :: ws))%string.
  rewrite !upper_app, IH. reflexivity.
Qed.

Lemma is_word_upper (w : string) : is_word w -> is_word (Str.upper w).
Proof.
  intros [Hne Hw]. split.
  - destruct w; [now elim Hne | discriminate].
  - unfold Str.upper. rewrite chars_map, forallb_forall in *.
    intros x Hx. apply in_map_iff in Hx. destruct Hx as (c & <- & Hc).
    rewrite is_space_upper_char. now apply Hw.
Qed.

Lemma is_word_perm (a w : string) :
  Permutation (Str.chars a) (Str.chars w) -> is_word w -> is_word a.
Proof.
  intros Hp [Hne Hw]. split.
  - intro E. subst a. simpl in Hp. apply Permutation_nil in Hp.
    apply Hne. now apply chars_inj.
  - rewrite forallb_forall in *. intros x Hx. apply Hw.
    eapply Permutation_in; eassumption.
Qed.

Lemma scramble_words_perm (R : RandomSource) (fuel : nat) :
  forall words k l k',
    scramble_words R fuel words k = Some (l, k') ->
    Forall2 (fun a w => Permutation (Str.chars a) (Str.chars w)) l words.
Proof.
  induction words as [|w words IH]; intros k l k' H; simpl in H.
  - inversion H; subst. constructor.
  - destruct (_scramble_word R fuel w k) as [[a k1]|] eqn:Ea; [|discriminate].
    destruct (scramble_words R fuel words k1) as [[l1 k2]|] eqn:El;
      [|discriminate].
    inversion H; subst. constructor; [|eapply IH; exact El].
    eapply scramble_loop_perm. exact Ea.
Qed.

(** An anagram of the title [t]: split at white space it has one word
    per word of the title, each with the characters of the upper-cased
    title word. *)
Definition anagram_of (t a : string) : Prop :=
  Forall2 (fun x w => Permutation (Str.chars x) (Str.chars (Str.upper w)))
          (Str.split a) (Str.split t).

Lemma scrambled_anagram_of (R : RandomSource) (fuel : nat) (t : string)
  (k k' : nat) (l : list string) :
  scramble_words R fuel (Str.split t) k = Some (l, k') ->
  anagram_of t (Str.upper (Str.join " " l)).
Proof.
  intro H. apply scramble_words_perm in H.
  assert (Hl : Forall is_word (map Str.upper l)).
  { pose proof (split_words t) as Hw. revert Hw.
    induction H as [|a w l ws Hp _ IH]; intro Hw; [constructor|].
    inversion Hw; subst. simpl. constructor; [|now apply IH].
    apply is_word_upper. eapply is_word_perm; eassumption. }
  unfold anagram_of. rewrite upper_join, (split_join _ Hl).
  clear Hl. induction H as [|a w l ws Hp _ IH]; [constructor|].
  simpl. constructor; [|exact IH].
  unfold Str.upper. rewrite !chars_map. now apply Permutation_map.
Qed.

Lemma fill_anagrams_words (R : RandomSource) (fuel : nat) :
  forall n movie k movie' k',
    fill_anagrams R fuel n movie k = Some (movie', k') ->
    Forall (anagram_of (title movie)) (anagrams movie) ->
    Forall (anagram_of (title movie)) (anagrams movie').
Proof.
  induction n as [|n IH]; intros movie k movie' k' H Hacc.
  - simpl in H. inversion H; subst. exact Hacc.
  - rewrite fill_anagrams_S in H.
    destruct (scramble_words R fuel (Str.split (title movie)) k)
      as [[l k1]|] eqn:E; [|discriminate].
    apply IH in H; [exact H|]. simpl.
    apply Forall_app. split; [exact Hacc|].
    constructor; [|constructor]. eapply scrambled_anagram_of. exact E.
Qed.

Lemma build_questions_words (R : RandomSource) (fuel : nat) :
  forall movie_titles acc k qs k',
    build_questions R fuel movie_titles acc k = Some (qs, k') ->
    Forall (fun q => Forall (anagram_of (title q)) (anagrams q)) acc ->
    Forall (fun q => Forall (anagram_of (title q)) (anagrams q)) qs.
Proof.
  induction movie_titles as [|t rest IH]; intros acc k qs k' H Hacc.
  - inversion H; subst. exact Hacc.
  - rewrite build_questions_cons in H.
    destruct (fill_anagrams R fuel anagrams_per_title (new_Movie t []) k)
      as [[movie k1]|] eqn:E; [|discriminate].
    apply IH in H; [exact H|].
    apply Forall_app. split; [exact Hacc|].
    constructor; [|constructor].
    pose proof (fill_anagrams_title R fuel _ _ _ _ _ E) as (Et & _).
    rewrite Et.
    apply (fill_anagrams_words R fuel _ _ _ _ _ E). constructor.
Qed.

(** X16. Every anagram in the pool of every entry [_generate_quiz]
    returns keeps the word structure of the title: split at white space
    it has as many words as the title, and each is a rearrangement of
    the characters of the corresponding title word in upper case. *)
Theorem generated_anagrams_keep_words (R : RandomSource) (fuel : nat)
  (movie_titles : list string) (k k' : nat) (qs : list Movie) :
  _generate_quiz R fuel movie_titles k = Some (qs, k') ->
  Forall (fun q =>
            Forall (fun a =>
                      Forall2 (fun x w =>
                                 Permutation (Str.chars x)
                                             (Str.chars (Str.upper w)))
                              (Str.split a) (Str.split (title q)))
                   (anagrams q)) qs.
Proof.
  intro H. unfold _generate_quiz in H.
  destruct (build_questions R fuel movie_titles [] k) as [[built k1]|] eqn:E;
    [|discriminate].
  inversion H; subst. clear H.
  pose proof (build_questions_words R fuel _ _ _ _ _ E (Forall_nil _)) as Hb.
  rewrite Forall_forall in *. intros q Hq. apply Hb.
  eapply Permutation_in; [apply shuffle_perm | exact Hq].
Qed.

Definition matrix_entries : list Movie :=
  match _generate_quiz rotating 1 ["The  Matrix"] 0 with
  | Some (qs, _) => qs
  | None => []
  end.

Lemma generated_anagrams_keep_words_witness :
  _generate_quiz rotating 1 ["The  Matrix"] 0 = Some (matrix_entries, 101)
  /\ map (fun q => hd "" (anagrams q)) matrix_entries = ["HET ATRIXM"]
  /\ Forall (fun q => Forall (anagram_of (title q)) (anagrams q))
            matrix_entries.
Proof.
  assert (H : _generate_quiz rotating 1 ["The  Matrix"] 0
              = Some (matrix_entries, 101)) by (vm_compute; reflexivity).
  split; [exact H|]. split; [vm_compute; reflexivity|].
  exact (generated_anagrams_keep_words rotating 1 _ 0 101 matrix_entries H).
Defined.

(** ** A session in which every first guess is right *)

(** An entry that can be shown and whose title is not a command. *)
Definition askable (q : Movie) : Prop :=
  1 <= fresh_count q
  /\ title_lower q <> "next" /\ title_lower q <> "pass".

(** What the user types for an entry: a guess and, at the continue
    prompt, anything. *)
Definition typed (answers : list (string * string)) : list input_event :=
  flat_map (fun p => [Line (fst p); Line (snd p)]) answers.

Lemma guess_loop_correct_first (R : RandomSource) (i n : nat) (w : world)
  (q : Movie) (g : string) (rest : list input_event) :
  nth_error (questions (quiz w)) i = Some q ->
  askable q ->
  stdin w = Line g :: rest ->
  Str.lower (Str.strip g) = title_lower q ->
  exists a out,
    guess_loop R i 0 (S n) DEFAULT w
    = (Ok CORRECT,
       mkWorld (replace i (solved (shown q a)) (quiz w)) rest
               (stdout w ++ out) (S (draws w))).
Proof.
  intros Hq (Hf & Hn & Hp) Hin Hg.
  destruct (show_anagram_default R i w q Hq Hf) as (a & _ & Hshow).
  set (w1 := put w i (shown q a) [Print (msg_anagram a)] 1) in *.
  assert (Hq1 : nth_error (questions (quiz w1)) i = Some (shown q a)).
  { unfold w1, put, questions. simpl. eapply nth_error_set_nth, Hq. }
  assert (Hin1 : stdin w1 = Line g :: rest) by exact Hin.
  pose proof (read_guess_line_full i 0 w1 (shown q a) g rest Hq1 Hin1) as Hread.
  assert (Hc : classify (title_lower (shown q a)) (Str.lower (Str.strip g))
               = CORRECT).
  { apply classify_correct_iff. change (title_lower (shown q a))
      with (title_lower q). rewrite Hg. repeat split; assumption. }
  rewrite Hc in Hread. simpl in Hread.
  exists a, ([Print (msg_anagram a)]
             ++ Prompt (guess_prompt (quiz w1) 0) :: feedback CORRECT).
  simpl guess_loop. unfold attempt, bind. rewrite Hshow, Hread. simpl.
  unfold ret. f_equal. f_equal.
  - unfold w1, put. simpl. apply replace_twice.
  - unfold w1, put. simpl. now rewrite <- app_assoc.
Qed.

Lemma ask_correct_first (R : RandomSource) (i : nat) (w : world)
  (q : Movie) (g ack : string) (rest : list input_event) :
  nth_error (questions (quiz w)) i = Some q ->
  askable q ->
  1 <= max_guesses (quiz w) ->
  stdin w = Line g :: Line ack :: rest ->
  Str.lower (Str.strip g) = title_lower q ->
  exists a out,
    ask R i w
    = (Ok CORRECT,
       mkWorld (replace i (solved (shown q a)) (quiz w)) rest
               (stdout w ++ out) (S (draws w))).
Proof.
  intros Hq Hask Hmax Hin Hg.
  destruct (max_guesses (quiz w)) as [|n] eqn:En; [lia|].
  set (w0 := mkWorld (quiz w) (stdin w)
               (((stdout w ++ [Clear]) ++ [Print (msg_header (quiz w) i)])
                  ++ [Print msg_help]) (draws w)).
  destruct (guess_loop_correct_first R i n w0 q g (Line ack :: rest) Hq Hask
              Hin Hg) as (a & out & Hloop).
  exists a, ([Clear; Print (msg_header (quiz w) i); Print msg_help]
             ++ out ++ [Prompt msg_continue]).
  unfold ask, bind. simpl. rewrite En. fold w0. rewrite Hloop. simpl.
  unfold ret. f_equal. f_equal. unfold msg_continue.
  rewrite <- !app_assoc. reflexivity.
Qed.

Lemma ask_all_correct_first (R : RandomSource) :
  forall todo answers pre w rest,
    questions (quiz w) = pre ++ todo ->
    Forall askable todo ->
    1 <= max_guesses (quiz w) ->
    Forall2 (fun q p => Str.lower (Str.strip (fst p)) = title_lower q)
            todo answers ->
    stdin w = typed answers ++ rest ->
    exists w',
      ask_all R (length pre) (length todo) w
      = (Ok (map (fun _ => CORRECT) todo), w')
      /\ stdin w' = rest
      /\ draws w' = length todo + draws w
      /\ _max_guesses (quiz w') = _max_guesses (quiz w)
      /\ exists todo',
          questions (quiz w') = pre ++ todo'
          /\ Forall (fun q => correct_guess q = true) todo'
          /\ length todo' = length todo.
Proof.
  induction todo as [|q todo IH];
    intros answers pre w rest Hqs Hask Hmax Hans Hin.
  - inversion Hans; subst. exists w. simpl in *.
    repeat split; try assumption. exists []. repeat split; assumption || constructor.
  - inversion Hans as [|? [g ack] ? answers' Hg Hrest]; subst.
    inversion Hask as [|? ? Hq_ask Htodo_ask]; subst.
    simpl in Hin, Hg.
    assert (Hq : nth_error (questions (quiz w)) (length pre) = Some q)
      by (rewrite Hqs; apply nth_error_middle).
    destruct (ask_correct_first R (length pre) w q g ack
                (typed answers' ++ rest) Hq Hq_ask Hmax Hin Hg)
      as (a & out & Hrun).
    set (w1 := mkWorld (replace (length pre) (solved (shown q a)) (quiz w))
                 (typed answers' ++ rest) (stdout w ++ out) (S (draws w)))
      in *.
    assert (Hqs1 : questions (quiz w1)
                   = (pre ++ [solved (shown q a)]) ++ todo).
    { unfold w1, replace, questions. simpl. fold (questions (quiz w)).
      rewrite Hqs, set_nth_app, <- app_assoc. reflexivity. }
    destruct (IH answers' (pre ++ [solved (shown q a)]) w1 rest Hqs1
                Htodo_ask Hmax Hrest eq_refl)
      as (w' & Hall & Hin' & Hd' & Hm' & todo' & Hqs' & Hc' & Hl').
    rewrite length_app in Hall. simpl in Hall.
    rewrite Nat.add_1_r in Hall.
    exists w'. simpl ask_all. unfold bind. rewrite Hrun. fold w1.
    rewrite Hall. split; [reflexivity|]. split; [exact Hin'|].
    split; [rewrite Hd'; simpl; lia|]. split; [exact Hm'|].
    exists (solved (shown q a) :: todo').
    split; [rewrite Hqs', <- app_assoc; reflexivity|].
    split; [constructor; [reflexivity | exact Hc'] | simpl; now rewrite Hl'].
Qed.

(** X17. When every entry has an anagram to show and a title that is
    not a command, at least one guess is allowed, and the user answers
    each entry at the first prompt with its title (in any letter case,
    padded or not) and then anything at the continue prompt, [start]
    returns with [CORRECT] for every entry, every flag set, exactly
    those lines read, one random draw per entry, and the celebration as
    the verdict of the summary. *)
Theorem all_first_guesses_right (R : RandomSource) (self : MovieQuiz)
  (answers : list (string * string)) (rest : list input_event) (k : nat) :
  Forall askable (questions self) ->
  1 <= max_guesses self ->
  Forall2 (fun q p => Str.lower (Str.strip (fst p)) = title_lower q)
          (questions self) answers ->
  exists w',
    run_start R self (typed answers ++ rest) k
    = (Ok (map (fun _ => CORRECT) (questions self)), w')
    /\ Forall (fun q => correct_guess q = true) (questions (quiz w'))
    /\ stdin w' = rest
    /\ draws w' = length (questions self) + k
    /\ exists out,
        stdout w'
        = out ++ [Clear; Print msg_all_done; Print msg_all_right; Print NL].
Proof.
  intros Hask Hmax Hans.
  destruct (ask_all_correct_first R (questions self) answers []
              (mkWorld self (typed answers ++ rest) [] k) rest
              eq_refl Hask Hmax Hans eq_refl)
    as (w1 & Hall & Hin1 & Hd1 & _ & qs' & Hqs' & Hc' & Hl').
  simpl in Hall, Hqs', Hd1.
  exists (snd (summary w1)).
  unfold run_start, start, bind, get_quiz. simpl. rewrite Hall.
  rewrite summary_run. simpl. rewrite Hqs'.
  split; [reflexivity|]. split; [exact Hc'|]. split; [exact Hin1|].
  split; [exact Hd1|].
  exists (stdout w1). unfold verdict.
  apply count_correct_all in Hc'. rewrite Hc', Nat.eqb_refl. reflexivity.
Qed.

Lemma all_first_guesses_right_witness :
  exists w',
    run_start rotating (mkMovieQuiz two_titles two_entries 3)
      (typed [(" UP", ""); ("jaws ", "ok")] ++ [Line "left"]) 101
    = (Ok [CORRECT; CORRECT], w')
    /\ stdin w' = [Line "left"]
    /\ draws w' = 103.
Proof.
  destruct (all_first_guesses_right rotating
              (mkMovieQuiz two_titles two_entries 3)
              [(" UP", ""); ("jaws ", "ok")] [Line "left"] 101)
    as (w' & Hrun & _ & Hin & Hd & _).
  - vm_compute. repeat constructor; discriminate.
  - simpl. lia.
  - vm_compute. repeat constructor.
  - exists w'. split; [exact Hrun|]. split; [exact Hin | exact Hd].
Defined.

(** ** [ConsoleUtils.get_input] *)

Lemma strip_chars_ends (l : list ascii) (c : ascii) :
  hd_error (strip_chars l) = Some c \/ hd_error (rev (strip_chars l)) = Some c ->
  Str.is_space c = false.
Proof.
  intros [H|H].
  - destruct (strip_chars_head l) as [E|(x & m & _ & Hx & E)];
      rewrite E in H; simpl in H; [discriminate|].
    inversion H; subst. exact Hx.
  - unfold strip_chars in H. rewrite rev_involutive in H.
    destruct (drop_space_head (rev (drop_space l))) as [E|(x & m & E & Hx)];
      rewrite E in H; simpl in H; [discriminate|].
    inversion H; subst. exact Hx.
Qed.

(** X18. [get_input] writes the prompt and takes one event from the
    input. A typed line is returned trimmed: trimming it again changes
    nothing, and neither its first nor its last character is white
    space. Ctrl+C prints the farewell and ends in [SystemExit]; the end
    of the input ends in [EOFError]. *)
Theorem get_input_cases (p : string) (w : world) :
  match stdin w with
  | Line s :: rest =>
      get_input p w
      = (Ok (Str.strip s),
         mkWorld (quiz w) rest (stdout w ++ [Prompt p]) (draws w))
      /\ Str.strip (Str.strip s) = Str.strip s
      /\ (forall c,
             hd_error (Str.chars (Str.strip s)) = Some c
             \/ hd_error (rev (Str.chars (Str.strip s))) = Some c ->
             Str.is_space c = false)
  | CtrlC :: rest =>
      get_input p w
      = (Raise SystemExit,
         mkWorld (quiz w) rest (stdout w ++ [Prompt p; Print farewell])
                 (draws w))
  | [] =>
      get_input p w
      = (Raise EOFError,
         mkWorld (quiz w) [] (stdout w ++ [Prompt p]) (draws w))
  end.
Proof.
  unfold get_input, bind, input.
  destruct (stdin w) as [|[s|] rest]; simpl.
  - reflexivity.
  - split; [reflexivity|]. split; [apply strip_idem|].
    intros c Hc. rewrite chars_strip in Hc.
    eapply strip_chars_ends. exact Hc.
  - unfold print, raise. simpl. rewrite <- app_assoc. reflexivity.
Qed.

(** ** Titles without a word *)

Lemma split_blank (t : string) : blank t -> Str.split t = [].
Proof.
  unfold blank, Str.split. induction t as [|c t IH]; simpl; intro H;
    [reflexivity|].
  apply andb_true_iff in H. destruct H as [Hc Ht]. rewrite Hc. now apply IH.
Qed.

Lemma fill_anagrams_blank (R : RandomSource) (fuel : nat) (t : string) :
  blank t ->
  forall n acc k,
    fill_anagrams R fuel n (mkMovie t acc false []) k
    = Some (mkMovie t (acc ++ repeat "" n) false [], k).
Proof.
  intro Ht. induction n as [|n IH]; intros acc k.
  - simpl. now rewrite app_nil_r.
  - rewrite fill_anagrams_S. simpl title. rewrite (split_blank t Ht).
    simpl scramble_words. cbv iota beta. simpl anagrams.
    change (Str.upper (Str.join " " [])) with "".
    rewrite IH, <- app_assoc. reflexivity.
Qed.

(** The entry of a title without a word. *)
Definition blank_entry (t : string) : Movie :=
  mkMovie t (repeat "" anagrams_per_title) false [].

Lemma build_questions_blank (R : RandomSource) (fuel : nat) :
  forall movie_titles acc k,
    Forall blank movie_titles ->
    build_questions R fuel movie_titles acc k
    = Some (acc ++ map blank_entry movie_titles, k).
Proof.
  induction movie_titles as [|t rest IH]; intros acc k H.
  - simpl. now rewrite app_nil_r.
  - inversion H; subst. rewrite build_questions_cons.
    unfold new_Movie. rewrite (fill_anagrams_blank R fuel t); [|assumption].
    rewrite IH; [|assumption]. simpl. now rewrite <- app_assoc.
Qed.

(** X19. For a word list whose lines are all empty or white space,
    [_generate_quiz] returns whatever the fuel, having scrambled nothing
    and drawn only the shuffle: every entry has a pool of 50 empty
    anagrams, of which one can be shown. *)
Theorem generate_quiz_blank_titles (R : RandomSource) (fuel k : nat)
  (movie_titles : list string) :
  Forall blank movie_titles ->
  _generate_quiz R fuel movie_titles k
  = Some (shuffle R k (map blank_entry movie_titles), S k)
  /\ Forall (fun t => anagrams (blank_entry t) = repeat "" 50
                      /\ fresh_count (blank_entry t) = 1) movie_titles.
Proof.
  intro H. split.
  - unfold _generate_quiz. now rewrite (build_questions_blank R fuel _ [] k H).
  - apply Forall_forall. intros t _. split; reflexivity.
Qed.

Lemma generate_quiz_blank_titles_witness :
  _generate_quiz rotating 0 [""; "  "] 7
  = Some ([blank_entry ""; blank_entry "  "], 8).
Proof.
  apply (proj1 (generate_quiz_blank_titles rotating 0 7 [""; "  "]
                  ltac:(repeat constructor))).
Defined.

(** ** No guess allowed *)

(** X20. With [max_guesses] 0 an entry is asked without an anagram and
    without a guess: [ask] prints the heading and the help, reveals the
    title as after the last attempt, and waits at the continue prompt;
    the entry is unchanged and no random draw is made. *)
Theorem ask_without_guesses (R : RandomSource) (i : nat) (w : world)
  (q : Movie) (ack : string) (rest : list input_event) :
  max_guesses (quiz w) = 0 ->
  nth_error (questions (quiz w)) i = Some q ->
  stdin w = Line ack :: rest ->
  ask R i w
  = (Ok DEFAULT,
     mkWorld (quiz w) rest
       (stdout w
        ++ [Clear; Print (msg_header (quiz w) i); Print msg_help;
            Print (msg_reveal DEFAULT q); Prompt msg_continue])
       (draws w)).
Proof.
  intros Hmax Hq Hin.
  unfold ask, bind. simpl. rewrite Hmax. simpl.
  unfold bind, get_question. simpl. rewrite Hq. simpl.
  unfold get_input, bind, input. simpl. rewrite Hin. simpl.
  unfold ret, msg_continue. rewrite <- !app_assoc. reflexivity.
Qed.

Lemma ask_without_guesses_witness :
  fst (ask rotating 0 (mkWorld (mkMovieQuiz ["Jaws"] [jaws] 0)
                         [Line ""; Line "jaws"] [] 0)) = Ok DEFAULT
  /\ stdin (snd (ask rotating 0 (mkWorld (mkMovieQuiz ["Jaws"] [jaws] 0)
                                   [Line ""; Line "jaws"] [] 0)))
     = [Line "jaws"].
Proof.
  rewrite (ask_without_guesses rotating 0
             (mkWorld (mkMovieQuiz ["Jaws"] [jaws] 0)
                [Line ""; Line "jaws"] [] 0)
             jaws "" [Line "jaws"] eq_refl eq_refl eq_refl).
  split; reflexivity.
Defined.
